(** * Game achievements backlog service: aggregation core

    A shallow embedding of the aggregation code of the service
    (SteamService, the rateLimit middleware and the achievements route)
    together with the properties its specification states about it.

    JavaScript numbers that the code only copies or compares with an
    integer (epoch seconds, the achieved flag, millisecond clocks, counters)
    are integers [Z]; numbers it divides (the completion percentage) and the
    upstream percentages are IEEE binary64 values [float]; an optional field
    ([undefined] or [null]) is an [option]. *)

From Stdlib Require Import ZArith PrimFloat Uint63 Lia.
From stdpp Require Import gmap strings pretty list fin_maps.

Local Open Scope Z_scope.

(** ** Insertion-ordered maps

    A JavaScript [Map] iterates in insertion order, and [set] on a key that
    is already present replaces the value and keeps the key's position.
    The merge reads the map back with [values()], so the order is part of
    the model: an association list without repeated keys. *)

Module JsMap.
Section JsMap.
Context {V : Type}.

Definition t := list (string * V).

Definition empty : t := [].

Fixpoint get (k : string) (m : t) : option V :=
  match m with
  | [] => None
  | (k', v) :: m' => if String.eqb k' k then Some v else get k m'
  end.

Fixpoint set (k : string) (v : V) (m : t) : t :=
  match m with
  | [] => [(k, v)]
  | (k', v') :: m' =>
      if String.eqb k' k then (k', v) :: m' else (k', v') :: set k v m'
  end.

(** [const o = m.get(k); if (o) { mutate o }]: the stored object is
    changed in place; nothing happens when the key is absent. *)
Fixpoint update (k : string) (f : V → V) (m : t) : t :=
  match m with
  | [] => []
  | (k', v) :: m' =>
      if String.eqb k' k then (k', f v) :: m' else (k', v) :: update k f m'
  end.

Definition keys (m : t) : list string := m.*1.

Definition values (m : t) : list V := m.*2.

End JsMap.
Global Arguments t : clear implicits.
End JsMap.

(** ** Upstream shapes consumed by the merge *)

Module SchemaEntry.
Record t := mk {
  name : string;
  displayName : string;
  description : string;
  icon : string;
  icongray : string;
  hidden : Z
}.
End SchemaEntry.

Module GlobalStat.
Record t := mk {
  name : string;
  percent : float
}.
End GlobalStat.

Module UserAchievement.
Record t := mk {
  apiname : string;
  achieved : Z;
  unlocktime : option Z
}.
End UserAchievement.

(** ** Canonical achievement record *)

Module Icon.
Record t := mk {
  default : string;
  achieved : string
}.
End Icon.

Record Achievement := mkAchievement {
  apiName : string;
  name : string;
  description : string;
  icon : Icon.t;
  globalPercentage : float;
  unlocked : bool;
  unlockTime : option Z;
  platform : string;
  hidden : bool
}.

(** [x || undefined] on an optional number: zero is falsy. *)
Definition orUndefined (x : option Z) : option Z :=
  match x with
  | Some t => if t =? 0 then None else Some t
  | None => None
  end.

(** Step 1 of the merge: the record built from one schema entry. *)
Definition schemaRecord (ach : SchemaEntry.t) : Achievement :=
  {| apiName := SchemaEntry.name ach;
     name := SchemaEntry.displayName ach;
     description := SchemaEntry.description ach;
     icon := {| Icon.default := SchemaEntry.icon ach;
                Icon.achieved := SchemaEntry.icongray ach |};
     globalPercentage := 0%float;
     unlocked := false;
     unlockTime := None;
     platform := "steam";
     hidden := SchemaEntry.hidden ach =? 1 |}.

(** [achievement.globalPercentage = globalAch.percent] *)
Definition setGlobal (globalAch : GlobalStat.t) (a : Achievement) : Achievement :=
  {| apiName := apiName a;
     name := name a;
     description := description a;
     icon := icon a;
     globalPercentage := GlobalStat.percent globalAch;
     unlocked := unlocked a;
     unlockTime := unlockTime a;
     platform := platform a;
     hidden := hidden a |}.

(** [achievement.unlocked = userAch.achieved === 1;
     achievement.unlockTime = userAch.unlocktime || undefined] *)
Definition setUser (userAch : UserAchievement.t) (a : Achievement) : Achievement :=
  {| apiName := apiName a;
     name := name a;
     description := description a;
     icon := icon a;
     globalPercentage := globalPercentage a;
     unlocked := UserAchievement.achieved userAch =? 1;
     unlockTime := orUndefined (UserAchievement.unlocktime userAch);
     platform := platform a;
     hidden := hidden a |}.

Definition buildSchemaMap (schema : list SchemaEntry.t)
    (m : JsMap.t Achievement) : JsMap.t Achievement :=
  fold_left (λ m ach, JsMap.set (SchemaEntry.name ach) (schemaRecord ach) m)
            schema m.

(** One overlay pass, [entries.forEach((e) => { const achievement =
    achievementMap.get(key(e)); if (achievement) { assign(e, achievement) } })]:
    the record found under the entry's key is changed in place, and an entry
    whose key is not in the map changes nothing. *)
Definition overlay {A V : Type} (key : A → string) (assign : A → V → V)
    (entries : list A) (m : JsMap.t V) : JsMap.t V :=
  fold_left (λ m e, JsMap.update (key e) (assign e) m) entries m.

(** Step 2: [globalStats.forEach] with [globalAch.name] as key. *)
Definition overlayGlobal (globalStats : list GlobalStat.t)
    (m : JsMap.t Achievement) : JsMap.t Achievement :=
  overlay GlobalStat.name setGlobal globalStats m.

(** Step 3: [userAchievements.forEach] with [userAch.apiname] as key. *)
Definition overlayUser (userAchievements : list UserAchievement.t)
    (m : JsMap.t Achievement) : JsMap.t Achievement :=
  overlay UserAchievement.apiname setUser userAchievements m.

(** SteamService.transformAchievementsData. The final [safeParse] only
    logs and does not change the returned array. *)
Definition transformAchievementsData
    (userAchievements : list UserAchievement.t)
    (globalStats : list GlobalStat.t)
    (schema : list SchemaEntry.t) : list Achievement :=
  let achievementMap := buildSchemaMap schema JsMap.empty in
  let achievementMap := overlayGlobal globalStats achievementMap in
  let achievementMap := overlayUser userAchievements achievementMap in
  JsMap.values achievementMap.

(** The same merge with the two overlay passes exchanged. *)
Definition transformAchievementsData_userFirst
    (userAchievements : list UserAchievement.t)
    (globalStats : list GlobalStat.t)
    (schema : list SchemaEntry.t) : list Achievement :=
  let achievementMap := buildSchemaMap schema JsMap.empty in
  let achievementMap := overlayUser userAchievements achievementMap in
  let achievementMap := overlayGlobal globalStats achievementMap in
  JsMap.values achievementMap.

(** The last entry of a list that carries a given key: the one whose
    assignments survive a [forEach] pass over the list. *)
Definition lastEntry {A : Type} (key : A → string) (k : string) (l : list A)
    : option A :=
  fold_left (λ r e, if String.eqb (key e) k then Some e else r) l None.

(** A record changed by the last entry for key [k], if there is one. *)
Definition assignLast {A V : Type} (key : A → string) (assign : A → V → V)
    (k : string) (l : list A) (v : V) : V :=
  match lastEntry key k l with
  | Some e => assign e v
  | None => v
  end.

(** ** Failure of an upstream call

    [makeRequest] either returns the payload or throws the [SteamAPIError]
    built by the response interceptor. A computation that may throw is a
    value of [Fetch]; [x ← c; k] sequences two of them and [catch] is
    [try { ... } catch (error) { ... }]. *)

Record SteamAPIError := mkSteamAPIError {
  message : string;
  statusCode : Z;
  steamErrorCode : option Z
}.

Inductive Fetch (A : Type) : Type :=
  | Resolved (a : A)
  | Rejected (e : SteamAPIError).
Global Arguments Resolved {A} a.
Global Arguments Rejected {A} e.

Global Instance Fetch_ret : MRet Fetch := λ A a, Resolved a.

Global Instance Fetch_bind : MBind Fetch := λ A B k c,
  match c with
  | Resolved a => k a
  | Rejected e => Rejected e
  end.

Definition catch {A : Type} (c : Fetch A) (handler : SteamAPIError → Fetch A)
    : Fetch A :=
  match c with
  | Resolved a => Resolved a
  | Rejected e => handler e
  end.

(** [await Promise.all([p1, p2, p3])]: resolves when all three do, and
    throws as soon as one is rejected. Which rejection is thrown depends on
    timing; the only caller discards the error, so the first one in array
    order is taken here. *)
Definition promiseAll3 {A B C : Type}
    (p1 : Fetch A) (p2 : Fetch B) (p3 : Fetch C) : Fetch (A * B * C) :=
  a ← p1; b ← p2; c ← p3; mret (a, b, c).

Definition isRejected {A : Type} (c : Fetch A) : Prop :=
  match c with
  | Resolved _ => False
  | Rejected _ => True
  end.

(** ** Upstream response envelopes *)

Module PlayerStats.
Record t := mk { achievements : option (list UserAchievement.t) }.
End PlayerStats.

Record PlayerAchievementsResponse := mkPlayerAchievementsResponse {
  playerstats : option PlayerStats.t
}.

Module AchievementPercentages.
Record t := mk { achievements : option (list GlobalStat.t) }.
End AchievementPercentages.

Record GlobalPercentagesResponse := mkGlobalPercentagesResponse {
  achievementpercentages : option AchievementPercentages.t
}.

Module AvailableGameStats.
Record t := mk { achievements : option (list SchemaEntry.t) }.
End AvailableGameStats.

Module GameSchemaInfo.
Record t := mk { availableGameStats : option AvailableGameStats.t }.
End GameSchemaInfo.

Record SchemaResponse := mkSchemaResponse {
  game : option GameSchemaInfo.t
}.

(** Optional chaining [o?.field] on an optional object. *)
Definition optChain {A B : Type} (o : option A) (field : A → option B)
    : option B :=
  match o with
  | Some x => field x
  | None => None
  end.

Notation "o ?. f" := (optChain o f) (at level 50, left associativity).

(** [x || []] on an optional array. *)
Definition orEmpty {A : Type} (x : option (list A)) : list A :=
  match x with
  | Some l => l
  | None => []
  end.

(** SteamService.getGameAchievements, as a function of the outcomes of its
    three [makeRequest] calls. *)
Definition getGameAchievements
    (userStats : Fetch PlayerAchievementsResponse)
    (globalStats : Fetch GlobalPercentagesResponse)
    (schema : Fetch SchemaResponse) : Fetch (list Achievement) :=
  catch
    ('(userStats, globalStats, schema) ←
       promiseAll3 userStats globalStats schema;
     mret
       (transformAchievementsData
          (orEmpty (playerstats userStats ?. PlayerStats.achievements))
          (orEmpty (achievementpercentages globalStats
                      ?. AchievementPercentages.achievements))
          (orEmpty (game schema ?. GameSchemaInfo.availableGameStats
                      ?. AvailableGameStats.achievements))))
    (λ error, Resolved []).

(** ** Owned games *)

Module SteamGame.
Record t := mk {
  appid : Z;
  name : string;
  playtime_forever : Z;
  playtime_2weeks : option Z;
  img_icon_url : string;
  has_community_visible_stats : bool;
  rtime_last_played : option Z
}.
End SteamGame.

(** [new Date(ms)] *)
Record Date := mkDate { epochMs : Z }.

Record Playtime := mkPlaytime {
  total : Z;
  twoWeeks : option Z
}.

Module Game.
Record t := mk {
  appId : Z;
  name : string;
  playtime : Playtime;
  iconUrl : string;
  coverUrl : string;
  hasCommunityVisibleStats : bool;
  lastPlayed : option Date
}.
End Game.

(** SteamService.transformGameData *)
Definition transformGameData (game : SteamGame.t) : Game.t :=
  {| Game.appId := SteamGame.appid game;
     Game.name := SteamGame.name game;
     Game.playtime :=
       {| total := SteamGame.playtime_forever game;
          twoWeeks := SteamGame.playtime_2weeks game |};
     Game.iconUrl :=
       "http://media.steampowered.com/steamcommunity/public/images/apps/"
       +:+ pretty (SteamGame.appid game) +:+ "/"
       +:+ SteamGame.img_icon_url game +:+ ".jpg";
     Game.coverUrl :=
       "https://cdn.akamai.steamstatic.com/steam/apps/"
       +:+ pretty (SteamGame.appid game) +:+ "/library_600x900.jpg";
     Game.hasCommunityVisibleStats := SteamGame.has_community_visible_stats game;
     Game.lastPlayed :=
       match SteamGame.rtime_last_played game with
       | Some t => Some {| epochMs := t * 1000 |}
       | None => None
       end |}.

Module OwnedGames.
Record t := mk { games : option (list SteamGame.t) }.
End OwnedGames.

Record OwnedGamesResponse := mkOwnedGamesResponse {
  response : option OwnedGames.t
}.

(** SteamService.getUserGames, as a function of the outcome of its
    [makeRequest] call. [safeParse] returns a result object and the code
    only logs its issues. *)
Definition getUserGames (data : Fetch OwnedGamesResponse) : Fetch (list Game.t) :=
  data ← data;
  let games := orEmpty (response data ?. OwnedGames.games) in
  let transformedGames := transformGameData <$> games in
  mret transformedGames.

(** ** Achievement summary of the achievements route *)

Module Summary.
Record t := mk {
  total : nat;
  unlocked : nat;
  percentage : float
}.
End Summary.

(** An array length as a JavaScript number (exact below 2^53). *)
Definition numberOfNat (n : nat) : float :=
  PrimFloat.of_uint63 (Uint63.of_Z (Z.of_nat n)).

Definition achievementsSummary (achievements : list Achievement) : Summary.t :=
  let unlockedCount := length (List.filter unlocked achievements) in
  {| Summary.total := length achievements;
     Summary.unlocked := unlockedCount;
     Summary.percentage :=
       if (0 <? length achievements)%nat
       then (numberOfNat unlockedCount / numberOfNat (length achievements) * 100)%float
       else 0%float |}.

Record AchievementsPayload := mkAchievementsPayload {
  achievements : list Achievement;
  summary : Summary.t
}.

(** Handler of GET /user/:steamId/games/:appId/achievements: the data handed
    to the response builder, or the error passed to [next]. *)
Definition achievementsRoute
    (userStats : Fetch PlayerAchievementsResponse)
    (globalStats : Fetch GlobalPercentagesResponse)
    (schema : Fetch SchemaResponse) : Fetch AchievementsPayload :=
  achievements ← getGameAchievements userStats globalStats schema;
  mret {| achievements := achievements;
              summary := achievementsSummary achievements |}.

(** ** Rate limiter

    [requestStore] is a module-level [Map] from client key to a mutable
    [{ count, resetTime }] object. Only lookups by key are made on it, so
    it is a finite map. The object returned by [requestStore.get(key)] is
    the stored one: the assignments to [clientData] below change the store
    even on the path that returns before [requestStore.set]. *)

Record RateLimitConfig := mkRateLimitConfig {
  windowMs : Z;
  maxRequests : Z;
  configMessage : option string
}.

Record ClientData := mkClientData {
  count : Z;
  resetTime : Z
}.

Record Request := mkRequest {
  ip : option string;
  remoteAddress : option string
}.

Record RateLimitHeaders := mkRateLimitHeaders {
  xRateLimitLimit : Z;
  xRateLimitRemaining : Z;
  xRateLimitReset : Z
}.

Inductive Outcome :=
  | Next (headers : option RateLimitHeaders)
  | TooManyRequests (errorMessage : string) (retryAfter : Z).

Definition admitted (o : Outcome) : bool :=
  match o with
  | Next _ => true
  | TooManyRequests _ _ => false
  end.

(** [a || b] on optional strings: the empty string is falsy. *)
Definition orString (a b : option string) : option string :=
  match a with
  | Some EmptyString => b
  | Some s => Some s
  | None => b
  end.

(** [req.ip || req.socket.remoteAddress] *)
Definition clientKey (req : Request) : option string :=
  orString (ip req) (remoteAddress req).

(** [Math.ceil(x / 1000)] for an integer [x]. *)
Definition ceilSeconds (x : Z) : Z := - ((- x) / 1000).

(** The cleanup loop: every entry with [resetTime < windowStart] is deleted. *)
Definition purgeExpired (windowStart : Z) (requestStore : gmap string ClientData)
    : gmap string ClientData :=
  filter (λ entry, ¬ (resetTime entry.2 < windowStart)) requestStore.

(** The middleware body once a client key is known, at clock reading
    [now]: what it does to the response and the store it leaves. *)
Definition rateLimitKey (config : RateLimitConfig) (key : string) (now : Z)
    (requestStore : gmap string ClientData)
    : Outcome * gmap string ClientData :=
  let windowStart := now - windowMs config in
  let requestStore := purgeExpired windowStart requestStore in
  let stored := requestStore !! key in
  let clientData := default {| count := 0; resetTime := now |} stored in
  let clientData :=
    if resetTime clientData <? windowStart
    then {| count := 0; resetTime := now |}
    else clientData in
  let clientData :=
    {| count := count clientData + 1; resetTime := resetTime clientData |} in
  if count clientData >? maxRequests config then
    (TooManyRequests
       (default "Too many request" (orString (configMessage config) None))
       (ceilSeconds (resetTime clientData + windowMs config - now)),
     match stored with
     | Some _ => <[key := clientData]> requestStore
     | None => requestStore
     end)
  else
    (Next (Some {| xRateLimitLimit := maxRequests config;
                   xRateLimitRemaining := maxRequests config - count clientData;
                   xRateLimitReset :=
                     ceilSeconds (resetTime clientData + windowMs config) |}),
     <[key := clientData]> requestStore).

(** One run of the middleware returned by [rateLimit config]. *)
Definition rateLimit (config : RateLimitConfig) (req : Request) (now : Z)
    (requestStore : gmap string ClientData)
    : Outcome * gmap string ClientData :=
  match clientKey req with
  | None => (Next None, requestStore)
  | Some key =>
      if String.eqb key "" then (Next None, requestStore)
      else rateLimitKey config key now requestStore
  end.

(** A request whose client key is [key]. *)
Definition requestFrom (key : string) : Request :=
  {| ip := Some key; remoteAddress := None |}.

(** Successive admission checks, each with its clock reading, on the
    shared store; the outcomes are returned in order. *)
Fixpoint rateLimitAll (config : RateLimitConfig) (checks : list (Request * Z))
    (requestStore : gmap string ClientData)
    : list Outcome * gmap string ClientData :=
  match checks with
  | [] => ([], requestStore)
  | (req, now) :: checks =>
      let '(o, requestStore) := rateLimit config req now requestStore in
      let '(os, requestStore) := rateLimitAll config checks requestStore in
      (o :: os, requestStore)
  end.

(** The outcomes of the checks made by one client key, in order. *)
Fixpoint outcomesOf (key : string) (checks : list (Request * Z))
    (outcomes : list Outcome) : list Outcome :=
  match checks, outcomes with
  | (req, _) :: checks, o :: outcomes =>
      if bool_decide (clientKey req = Some key)
      then o :: outcomesOf key checks outcomes
      else outcomesOf key checks outcomes
  | _, _ => []
  end.

(** ** Sample inputs used in the examples below *)

Module Sample.

Definition schemaA : SchemaEntry.t :=
  SchemaEntry.mk "A" "First" "first" "a.jpg" "a_gray.jpg" 0.
Definition schemaB : SchemaEntry.t :=
  SchemaEntry.mk "B" "Second" "second" "b.jpg" "b_gray.jpg" 0.
Definition schemaC : SchemaEntry.t :=
  SchemaEntry.mk "C" "Third" "third" "c.jpg" "c_gray.jpg" 1.

(** The record of achievement "A" with the three merged fields given. *)
Definition recordA (globalPercentage : float) (unlocked : bool)
    (unlockTime : option Z) : Achievement :=
  {| apiName := "A"; name := "First"; description := "first";
     icon := {| Icon.default := "a.jpg"; Icon.achieved := "a_gray.jpg" |};
     globalPercentage := globalPercentage;
     unlocked := unlocked;
     unlockTime := unlockTime;
     platform := "steam"; hidden := false |}.

Definition recordB (globalPercentage : float) (unlocked : bool)
    (unlockTime : option Z) : Achievement :=
  {| apiName := "B"; name := "Second"; description := "second";
     icon := {| Icon.default := "b.jpg"; Icon.achieved := "b_gray.jpg" |};
     globalPercentage := globalPercentage;
     unlocked := unlocked;
     unlockTime := unlockTime;
     platform := "steam"; hidden := false |}.

Definition recordC (globalPercentage : float) (unlocked : bool)
    (unlockTime : option Z) : Achievement :=
  {| apiName := "C"; name := "Third"; description := "third";
     icon := {| Icon.default := "c.jpg"; Icon.achieved := "c_gray.jpg" |};
     globalPercentage := globalPercentage;
     unlocked := unlocked;
     unlockTime := unlockTime;
     platform := "steam"; hidden := true |}.

(** The scenario of the specification: schema {A, B, C}, global stats
    {A: 10, C: 5}, user stats {B achieved at 1700000000}. *)
Definition schema : list SchemaEntry.t := [schemaA; schemaB; schemaC].
Definition globalStats : list GlobalStat.t :=
  [GlobalStat.mk "A" 10; GlobalStat.mk "C" 5].
Definition userAchievements : list UserAchievement.t :=
  [UserAchievement.mk "B" 1 (Some 1700000000)].

(** Two global-percentage entries for the same achievement. *)
Definition globalStatsTwice : list GlobalStat.t :=
  [GlobalStat.mk "A" 10; GlobalStat.mk "A" 20].

(** A user entry that is not achieved but carries an unlock time. *)
Definition userNotAchievedWithTime : list UserAchievement.t :=
  [UserAchievement.mk "A" 0 (Some 1700000000)].

(** Two user entries for the same achievement, the achieved one first. *)
Definition userTwice : list UserAchievement.t :=
  [UserAchievement.mk "A" 1 (Some 1700000000); UserAchievement.mk "A" 0 None].

(** What the response interceptor throws for a request that timed out. *)
Definition timeout : SteamAPIError :=
  {| message := "Network error contacting Steam API";
     statusCode := 503;
     steamErrorCode := None |}.

Definition userStatsResponse : PlayerAchievementsResponse :=
  {| playerstats := Some (PlayerStats.mk (Some userAchievements)) |}.
Definition globalStatsResponse : GlobalPercentagesResponse :=
  {| achievementpercentages :=
       Some (AchievementPercentages.mk (Some globalStats)) |}.
Definition schemaResponse : SchemaResponse :=
  {| game := Some (GameSchemaInfo.mk
                     (Some (AvailableGameStats.mk (Some schema)))) |}.

(** An owned game that was never played: upstream reports 0. *)
Definition neverPlayed : SteamGame.t :=
  {| SteamGame.appid := 440;
     SteamGame.name := "Team Fortress 2";
     SteamGame.playtime_forever := 0;
     SteamGame.playtime_2weeks := None;
     SteamGame.img_icon_url := "e3f595a92552da3d664ad00277fad2107345f743";
     SteamGame.has_community_visible_stats := true;
     SteamGame.rtime_last_played := Some 0 |}.

(** A limiter of one request per minute, and a client whose window was
    opened at clock reading 0 and who has used its one request. *)
Definition client : string := "203.0.113.7".
Definition onePerMinute : RateLimitConfig :=
  {| windowMs := 60000; maxRequests := 1; configMessage := None |}.
Definition usedWindow : gmap string ClientData :=
  {[ client := {| count := 1; resetTime := 0 |} ]}.

(** A limiter whose quota is zero. *)
Definition noQuota : RateLimitConfig :=
  {| windowMs := 60000; maxRequests := 0; configMessage := None |}.

(** The limiter of the achievements route, with a smaller quota. *)
Definition twoPerMinute : RateLimitConfig :=
  {| windowMs := 60000; maxRequests := 2; configMessage := None |}.

End Sample.

(** ** Request-level cache of the service

    [SteamService.makeRequest]. The cache key is the endpoint, a colon and
    [JSON.stringify(params)]; the serializer is a parameter here. The call
    reads the clock once for the freshness test ([now]) and, after the
    upstream answered, once more for the expiry it stores ([arrival]);
    [get] is the outcome of [this.client.get], consulted only on a miss. The
    cache is the one found at the start of the call: no other request is
    taken to change it while this one awaits the upstream. *)

Record CacheEntry (T : Type) := mkCacheEntry {
  data : T;
  expiry : Z
}.
Global Arguments mkCacheEntry {T} data expiry.
Global Arguments data {T} c.
Global Arguments expiry {T} c.

Section MakeRequest.
Context {T Params : Type}.
Variable stringify : Params → string.

Definition cacheKey (endpoint : string) (params : Params) : string :=
  endpoint +:+ ":" +:+ stringify params.

Definition makeRequest (endpoint : string) (params : Params) (now : Z)
    (get : Fetch T) (arrival : Z) (cache : gmap string (CacheEntry T))
    : Fetch T * gmap string (CacheEntry T) :=
  let cacheKey := cacheKey endpoint params in
  let fresh :=
    match cache !! cacheKey with
    | Some cached => if expiry cached >? now then Some (data cached) else None
    | None => None
    end in
  match fresh with
  | Some cachedData => (Resolved cachedData, cache)
  | None =>
      match get with
      | Resolved responseData =>
          (Resolved responseData,
           <[cacheKey := {| data := responseData;
                            expiry := arrival + 3600000 |}]> cache)
      | Rejected error => (Rejected error, cache)
      end
  end.

End MakeRequest.

(** ** Errors of the upstream call and the error handler

    The part of an axios error that [handleSteamError] reads: the response
    when the upstream answered with an error status, and whether a request
    was sent at all. *)

Record AxiosErrorResponse := mkAxiosErrorResponse {
  statusText : string;
  status : Z;
  errorcode : option Z
}.

Record AxiosError := mkAxiosError {
  errorResponse : option AxiosErrorResponse;
  errorRequest : bool
}.

(** SteamService.handleSteamError *)
Definition handleSteamError (error : AxiosError) : SteamAPIError :=
  match errorResponse error with
  | Some r =>
      {| message := "Steam API Error: " +:+ statusText r;
         statusCode := status r;
         steamErrorCode := errorcode r |}
  | None =>
      if errorRequest error
      then {| message := "Network error contacting Steam API";
              statusCode := 503;
              steamErrorCode := None |}
      else {| message := "Unexpected error";
              statusCode := 500;
              steamErrorCode := None |}
  end.

(** What reaches the error handler: a [SteamAPIError], or another error
    with its name, message and optional [statusCode] property. *)
Inductive ThrownError :=
  | SteamError (e : SteamAPIError)
  | OtherError (errorName errorText : string) (errorStatus : option Z).

(** The status set on the response and the arguments handed to
    [ResponseBuilder.error] (code, message, details). *)
Record ErrorReply := mkErrorReply {
  replyStatus : Z;
  replyCode : string;
  replyMessage : string;
  replySteamErrorCode : option (option Z)
}.

(** [x || d] on an optional number: zero is falsy. *)
Definition orNumber (x : option Z) (d : Z) : Z :=
  match x with
  | Some n => if n =? 0 then d else n
  | None => d
  end.

(** middleware/errorHandler, with [process.env.NODE_ENV] as [nodeEnv]. *)
Definition errorHandler (nodeEnv : option string) (error : ThrownError)
    : ErrorReply :=
  match error with
  | SteamError e =>
      {| replyStatus := orNumber (Some (statusCode e)) 500;
         replyCode := "STEAM_API_ERROR";
         replyMessage := message e;
         replySteamErrorCode := Some (steamErrorCode e) |}
  | OtherError errorName errorText errorStatus =>
      if String.eqb errorName "ValibotError"
      then {| replyStatus := 400;
              replyCode := "VALIDATION_ERROR";
              replyMessage := "Invalid data format";
              replySteamErrorCode := None |}
      else {| replyStatus := orNumber errorStatus 500;
              replyCode := "INTERNAL_ERROR";
              replyMessage :=
                if bool_decide (nodeEnv = Some "production")
                then "Internal server error"
                else errorText;
              replySteamErrorCode := None |}
  end.

(** ** Owned-games route *)

(** The validated [includeAchievements] query value: absent, or whether
    the string is exactly "true". *)
Definition includeAchievementsOf (query : option string) : option bool :=
  (λ val, String.eqb val "true") <$> query.

(** [{ ...game, achievements }]; a game without the field has [None]. *)
Record GameWithAchievements := mkGameWithAchievements {
  baseGame : Game.t;
  gameAchievements : option (list Achievement)
}.

Record UserGamesPayload := mkUserGamesPayload {
  games : list GameWithAchievements;
  totalCount : nat;
  totalPlaytime : Z
}.

(** [await Promise.all(promises)] on an array. *)
Fixpoint promiseAll {A : Type} (promises : list (Fetch A)) : Fetch (list A) :=
  match promises with
  | [] => mret []
  | p :: promises => a ← p; rest ← promiseAll promises; mret (a :: rest)
  end.

(** Handler of GET /user/:steamId/games: the data handed to the response
    builder, or the error passed to [next]. [achievementFetches i] are the
    outcomes of the three upstream requests made for the i-th game. *)
Definition userGamesRoute (includeAchievements : option bool)
    (data : Fetch OwnedGamesResponse)
    (achievementFetches :
       nat → Fetch PlayerAchievementsResponse
             * Fetch GlobalPercentagesResponse
             * Fetch SchemaResponse)
    : Fetch UserGamesPayload :=
  games ← getUserGames data;
  gameWithAchievements ←
    match includeAchievements with
    | Some true =>
        promiseAll
          (imap (λ i game,
                   achievements ←
                     getGameAchievements (achievementFetches i).1.1
                                         (achievementFetches i).1.2
                                         (achievementFetches i).2;
                   mret {| baseGame := game;
                           gameAchievements := Some achievements |})
                games)
    | _ =>
        mret ((λ game, {| baseGame := game; gameAchievements := None |})
                <$> games)
    end;
  let totalPlaytime :=
    fold_left (λ sum game, sum + total (Game.playtime game)) games 0 in
  mret {| games := gameWithAchievements;
          totalCount := length games;
          totalPlaytime := totalPlaytime |}.

(** What a route answers: the payload, or the error handler's reply when
    the handler passed an error to [next]. *)
Inductive RouteReply (A : Type) : Type :=
  | JsonReply (payload : A)
  | ErrorJsonReply (reply : ErrorReply).
Global Arguments JsonReply {A} payload.
Global Arguments ErrorJsonReply {A} reply.

Definition withErrorHandler {A : Type} (nodeEnv : option string)
    (handler : Fetch A) : RouteReply A :=
  match handler with
  | Resolved payload => JsonReply payload
  | Rejected error => ErrorJsonReply (errorHandler nodeEnv (SteamError error))
  end.

(** ** Further sample inputs *)

Module Scenario.

Definition played : SteamGame.t :=
  {| SteamGame.appid := 570;
     SteamGame.name := "Dota 2";
     SteamGame.playtime_forever := 1200;
     SteamGame.playtime_2weeks := Some 30;
     SteamGame.img_icon_url := "0bbb630d63262dd66d2fdd0f7d37e8661a410075";
     SteamGame.has_community_visible_stats := true;
     SteamGame.rtime_last_played := Some 1700000000 |}.

Definition owned : OwnedGamesResponse :=
  {| response := Some (OwnedGames.mk (Some [Sample.neverPlayed; played])) |}.

(** The first game's achievement requests time out; the second's answer. *)
Definition fetches (i : nat)
    : Fetch PlayerAchievementsResponse * Fetch GlobalPercentagesResponse
      * Fetch SchemaResponse :=
  match i with
  | O => (Rejected Sample.timeout, Rejected Sample.timeout,
          Rejected Sample.timeout)
  | _ => (Resolved Sample.userStatsResponse,
          Resolved Sample.globalStatsResponse,
          Resolved Sample.schemaResponse)
  end.

(** An upstream answer "403 Forbidden" and a request that got no answer. *)
Definition forbidden : AxiosError :=
  {| errorResponse := Some {| statusText := "Forbidden"; status := 403;
                              errorcode := None |};
     errorRequest := true |}.
Definition noAnswer : AxiosError :=
  {| errorResponse := None; errorRequest := true |}.

(** A request cache holding one payload until clock reading 5000. *)
Definition cached : gmap string (CacheEntry Z) :=
  {[ "games:{}" := {| data := 7; expiry := 5000 |} ]}.

(** Two clients inside their windows, for a limiter of two per minute. *)
Definition other : string := "198.51.100.9".
Definition twoClients : gmap string ClientData :=
  {[ Sample.client := {| count := 2; resetTime := 1000 |};
     other := {| count := 1; resetTime := 2000 |} ]}.

(** A user entry and a global entry for an achievement the schema does not
    have, besides the entries of the specification's scenario. *)
Definition userWithStranger : list UserAchievement.t :=
  UserAchievement.mk "Z" 1 (Some 1600000000) :: Sample.userAchievements.
Definition globalWithStranger : list GlobalStat.t :=
  Sample.globalStats ++ [GlobalStat.mk "Z" 99].

End Scenario.

(** * Properties *)

(** ** Insertion-ordered maps *)

Module JsMapFacts.
Section JsMapFacts.
Context {V : Type}.
Implicit Types (m : JsMap.t V) (k : string) (v : V) (f : V → V).

Lemma keys_set k v m :
  JsMap.keys (JsMap.set k v m)
  = if bool_decide (k ∈ JsMap.keys m) then JsMap.keys m else JsMap.keys m ++ [k].
Proof.
  unfold JsMap.keys. induction m as [|[k' v'] m IH]; csimpl.
  - done.
  - destruct (String.eqb_spec k' k) as [->|Hne]; csimpl.
    + rewrite bool_decide_eq_true_2; [done | apply list_elem_of_here].
    + rewrite IH. destruct (decide (k ∈ m.*1)) as [Hin|Hnin].
      * rewrite !bool_decide_eq_true_2; [done | by apply list_elem_of_further | done].
      * rewrite !bool_decide_eq_false_2; [done | | done].
        rewrite elem_of_cons. intros [?|?]; [by subst | done].
Qed.

Lemma elem_of_keys_set k k' v m :
  k' ∈ JsMap.keys (JsMap.set k v m) ↔ k' = k ∨ k' ∈ JsMap.keys m.
Proof.
  rewrite keys_set. case_bool_decide as Hk.
  - split; [by right | by intros [->|?]].
  - rewrite elem_of_app, list_elem_of_singleton. tauto.
Qed.

Lemma NoDup_keys_set k v m :
  NoDup (JsMap.keys m) → NoDup (JsMap.keys (JsMap.set k v m)).
Proof.
  intros Hm. rewrite keys_set. case_bool_decide as Hk; [done|].
  apply NoDup_app. split_and!; [done | | apply NoDup_singleton].
  intros x Hx Hx'. apply list_elem_of_singleton in Hx'. by subst.
Qed.

Lemma keys_update k f m : JsMap.keys (JsMap.update k f m) = JsMap.keys m.
Proof.
  unfold JsMap.keys. induction m as [|[k' v'] m IH]; csimpl; [done|].
  destruct (String.eqb k' k); csimpl; [done|]. by rewrite IH.
Qed.

Lemma get_update k k' f m :
  JsMap.get k (JsMap.update k' f m)
  = if String.eqb k' k then f <$> JsMap.get k m else JsMap.get k m.
Proof.
  induction m as [|[k0 v0] m IH]; csimpl.
  - by destruct (String.eqb k' k).
  - destruct (String.eqb_spec k0 k') as [->|Hne]; csimpl.
    + destruct (String.eqb_spec k' k) as [->|Hne']; [done|].
      csimpl. by destruct (String.eqb_spec k' k).
    + rewrite IH. destruct (String.eqb_spec k0 k) as [->|Hne']; [|done].
      by destruct (String.eqb_spec k' k) as [->|].
Qed.

Lemma get_Some_elem_of k v m : JsMap.get k m = Some v → (k, v) ∈ m.
Proof.
  induction m as [|[k0 v0] m IH]; csimpl; [done|].
  destruct (String.eqb_spec k0 k) as [->|Hne].
  - intros [= ->]. apply list_elem_of_here.
  - intros H. apply list_elem_of_further. auto.
Qed.

Lemma elem_of_get k v m :
  NoDup (JsMap.keys m) → (k, v) ∈ m → JsMap.get k m = Some v.
Proof.
  unfold JsMap.keys. induction m as [|[k0 v0] m IH]; csimpl.
  - intros _ H. by apply not_elem_of_nil in H.
  - intros Hnd Hin. apply NoDup_cons in Hnd as [Hk0 Hnd].
    apply elem_of_cons in Hin as [[= -> ->]|Hin].
    + by rewrite String.eqb_refl.
    + destruct (String.eqb_spec k0 k) as [->|Hne]; [|auto].
      exfalso. apply Hk0. apply list_elem_of_fmap. by exists (k, v).
Qed.

(** Two in-place changes commute when the changes themselves do. *)
Lemma update_comm k1 k2 f1 f2 m :
  (∀ v, f1 (f2 v) = f2 (f1 v)) →
  JsMap.update k1 f1 (JsMap.update k2 f2 m)
  = JsMap.update k2 f2 (JsMap.update k1 f1 m).
Proof.
  intros Hcomm. induction m as [|[k v] m IH]; csimpl; [done|].
  destruct (String.eqb k k2) eqn:E2, (String.eqb k k1) eqn:E1; csimpl;
    rewrite ?E1, ?E2; try done.
  - by rewrite Hcomm.
  - by rewrite IH.
Qed.

Lemma elem_of_set k k' v v' m :
  (k', v') ∈ JsMap.set k v m → (k', v') = (k, v) ∨ (k', v') ∈ m.
Proof.
  induction m as [|[k0 v0] m IH]; csimpl.
  - rewrite list_elem_of_singleton. auto.
  - destruct (String.eqb_spec k0 k) as [->|Hne];
      rewrite !elem_of_cons; [tauto|].
    intros [?|?]; [tauto|]. destruct IH; auto.
Qed.

Lemma elem_of_update k k' f v' m :
  (k', v') ∈ JsMap.update k f m →
  (k', v') ∈ m ∨ ∃ v, (k', v) ∈ m ∧ v' = f v.
Proof.
  induction m as [|[k0 v0] m IH]; csimpl; [auto|].
  destruct (String.eqb k0 k); rewrite !elem_of_cons.
  - intros [[= -> ->]|?]; [|tauto].
    right. exists v0. split; [by left | done].
  - intros [?|Hin]; [tauto|].
    destruct (IH Hin) as [?|(v & ? & ?)]; [tauto|].
    right. exists v. rewrite elem_of_cons. tauto.
Qed.

End JsMapFacts.
End JsMapFacts.

(** ** An overlay pass over the achievement map

    Steps 2 and 3 of the merge have the same shape: for each entry, look its
    key up and assign some fields of the record found. Provided a later
    assignment overwrites an earlier one, the record left under a key is
    the original one changed by the last entry that carries this key. *)

Section OverlayFacts.
Context {A V : Type}.
Variable key : A → string.
Variable assign : A → V → V.
Hypothesis assign_overwrites : ∀ e e' v, assign e (assign e' v) = assign e v.

Lemma lastEntry_snoc k l e :
  lastEntry key k (l ++ [e])
  = if String.eqb (key e) k then Some e else lastEntry key k l.
Proof. unfold lastEntry. by rewrite fold_left_app. Qed.

Lemma lastEntry_None k l :
  (∀ e, e ∈ l → key e ≠ k) → lastEntry key k l = None.
Proof.
  induction l as [|e l IH] using rev_ind; [done|].
  intros Hl. rewrite lastEntry_snoc.
  destruct (String.eqb_spec (key e) k) as [Heq|_].
  - exfalso. apply (Hl e); [|done]. apply elem_of_app. right. apply list_elem_of_here.
  - apply IH. intros e' He'. apply Hl. apply elem_of_app. by left.
Qed.

Lemma lastEntry_Some k pre e post :
  key e = k → (∀ e', e' ∈ post → key e' ≠ k) →
  lastEntry key k (pre ++ e :: post) = Some e.
Proof.
  intros Hk. induction post as [|e' post IH] using rev_ind; intros Hpost.
  - rewrite lastEntry_snoc. by rewrite <- Hk, String.eqb_refl.
  - replace (pre ++ e :: post ++ [e']) with ((pre ++ e :: post) ++ [e'])
      by (by rewrite <- app_assoc).
    rewrite lastEntry_snoc.
    destruct (String.eqb_spec (key e') k) as [Heq|_].
    + exfalso. apply (Hpost e'); [|done]. apply elem_of_app. right. apply list_elem_of_here.
    + apply IH. intros e'' He''. apply Hpost. apply elem_of_app. by left.
Qed.

Lemma lastEntry_elem_of k l e :
  lastEntry key k l = Some e → e ∈ l ∧ key e = k.
Proof.
  induction l as [|e' l IH] using rev_ind; [done|].
  rewrite lastEntry_snoc, elem_of_app, list_elem_of_singleton.
  destruct (String.eqb_spec (key e') k) as [Heq|_].
  - intros [= ->]. auto.
  - intros H. destruct (IH H). auto.
Qed.

Lemma lastEntry_unique l e :
  NoDup (key <$> l) → e ∈ l → lastEntry key (key e) l = Some e.
Proof.
  intros Hnd Hin. apply list_elem_of_split in Hin as (pre & post & ->).
  apply lastEntry_Some; [done|]. intros e' He' Heq.
  rewrite fmap_app, fmap_cons in Hnd.
  apply NoDup_app in Hnd as (_ & _ & Hnd). apply NoDup_cons in Hnd as [Hnotin _].
  apply Hnotin. rewrite <- Heq. apply list_elem_of_fmap. by exists e'.
Qed.

Lemma overlay_snoc l e m :
  overlay key assign (l ++ [e]) m
  = JsMap.update (key e) (assign e) (overlay key assign l m).
Proof. unfold overlay. by rewrite fold_left_app. Qed.

Lemma keys_overlay l m :
  JsMap.keys (overlay key assign l m) = JsMap.keys m.
Proof.
  induction l as [|e l IH] using rev_ind; [done|].
  by rewrite overlay_snoc, JsMapFacts.keys_update.
Qed.

Lemma get_overlay k l m :
  JsMap.get k (overlay key assign l m)
  = assignLast key assign k l <$> JsMap.get k m.
Proof.
  induction l as [|e l IH] using rev_ind.
  - unfold assignLast. cbn. by destruct (JsMap.get k m).
  - rewrite overlay_snoc, JsMapFacts.get_update, IH.
    unfold assignLast. rewrite lastEntry_snoc.
    destruct (String.eqb (key e) k); [|done].
    destruct (JsMap.get k m) as [v|]; [|done]. cbn.
    destruct (lastEntry key k l); by rewrite ?assign_overwrites.
Qed.

End OverlayFacts.

(** Two overlay passes whose assignments commute can be exchanged. *)
Section OverlayComm.
Context {A B V : Type}.
Variables (key1 : A → string) (assign1 : A → V → V).
Variables (key2 : B → string) (assign2 : B → V → V).
Hypothesis assign_comm :
  ∀ e1 e2 v, assign1 e1 (assign2 e2 v) = assign2 e2 (assign1 e1 v).

Lemma update_overlay_comm e1 l2 (m : JsMap.t V) :
  JsMap.update (key1 e1) (assign1 e1) (overlay key2 assign2 l2 m)
  = overlay key2 assign2 l2 (JsMap.update (key1 e1) (assign1 e1) m).
Proof.
  revert m. induction l2 as [|e2 l2 IH]; intros m; [done|].
  change (overlay key2 assign2 (e2 :: l2) ?x)
    with (overlay key2 assign2 l2 (JsMap.update (key2 e2) (assign2 e2) x)).
  rewrite IH. f_equal.
  apply JsMapFacts.update_comm. intros v. apply assign_comm.
Qed.

Lemma overlay_comm l1 l2 (m : JsMap.t V) :
  overlay key1 assign1 l1 (overlay key2 assign2 l2 m)
  = overlay key2 assign2 l2 (overlay key1 assign1 l1 m).
Proof.
  revert m. induction l1 as [|e1 l1 IH]; intros m; [done|].
  change (overlay key1 assign1 (e1 :: l1) ?x)
    with (overlay key1 assign1 l1 (JsMap.update (key1 e1) (assign1 e1) x)).
  by rewrite update_overlay_comm, IH.
Qed.

End OverlayComm.

(** ** The three-source merge *)

Lemma setGlobal_overwrites e e' a : setGlobal e (setGlobal e' a) = setGlobal e a.
Proof. done. Qed.

Lemma setUser_overwrites e e' a : setUser e (setUser e' a) = setUser e a.
Proof. done. Qed.

Lemma setUser_setGlobal_comm u g a :
  setUser u (setGlobal g a) = setGlobal g (setUser u a).
Proof. done. Qed.

Lemma buildSchemaMap_snoc schema ach m :
  buildSchemaMap (schema ++ [ach]) m
  = JsMap.set (SchemaEntry.name ach) (schemaRecord ach) (buildSchemaMap schema m).
Proof. unfold buildSchemaMap. by rewrite fold_left_app. Qed.

Lemma elem_of_keys_buildSchemaMap k schema m :
  k ∈ JsMap.keys (buildSchemaMap schema m)
  ↔ k ∈ JsMap.keys m ∨ k ∈ SchemaEntry.name <$> schema.
Proof.
  induction schema as [|ach schema IH] using rev_ind.
  - cbn. rewrite elem_of_nil. tauto.
  - rewrite buildSchemaMap_snoc, JsMapFacts.elem_of_keys_set, IH.
    rewrite fmap_app, elem_of_app. cbn. rewrite list_elem_of_singleton. tauto.
Qed.

Lemma NoDup_keys_buildSchemaMap schema m :
  NoDup (JsMap.keys m) → NoDup (JsMap.keys (buildSchemaMap schema m)).
Proof.
  intros Hm. induction schema as [|ach schema IH] using rev_ind; [done|].
  rewrite buildSchemaMap_snoc. by apply JsMapFacts.NoDup_keys_set.
Qed.

Lemma elem_of_buildSchemaMap k a schema m :
  (k, a) ∈ buildSchemaMap schema m →
  (k, a) ∈ m
  ∨ ∃ ach, ach ∈ schema ∧ k = SchemaEntry.name ach ∧ a = schemaRecord ach.
Proof.
  induction schema as [|ach schema IH] using rev_ind; [auto|].
  rewrite buildSchemaMap_snoc. intros Hin.
  apply JsMapFacts.elem_of_set in Hin as [[= -> ->]|Hin].
  - right. exists ach. rewrite elem_of_app, list_elem_of_singleton. auto.
  - destruct (IH Hin) as [?|(ach' & ? & ? & ?)]; [auto|].
    right. exists ach'. rewrite elem_of_app. auto.
Qed.

(** The map left by the three passes, before [values()] is taken. *)
Lemma mergedMap_keys userAchievements globalStats schema :
  JsMap.keys (overlayUser userAchievements
                (overlayGlobal globalStats (buildSchemaMap schema JsMap.empty)))
  = JsMap.keys (buildSchemaMap schema JsMap.empty).
Proof. unfold overlayUser, overlayGlobal. by rewrite !keys_overlay. Qed.

(** Every pair of the final map comes from a schema entry with that name,
    changed by the last global entry and the last user entry for it. *)
Lemma mergedMap_elem_of k a userAchievements globalStats schema :
  (k, a) ∈ overlayUser userAchievements
             (overlayGlobal globalStats (buildSchemaMap schema JsMap.empty)) →
  ∃ ach, ach ∈ schema ∧ k = SchemaEntry.name ach
    ∧ a = assignLast UserAchievement.apiname setUser k userAchievements
            (assignLast GlobalStat.name setGlobal k globalStats
               (schemaRecord ach)).
Proof.
  intros Hin. apply JsMapFacts.elem_of_get in Hin.
  2:{ rewrite mergedMap_keys. apply NoDup_keys_buildSchemaMap, NoDup_nil_2. }
  unfold overlayUser, overlayGlobal in Hin.
  rewrite (get_overlay _ _ setUser_overwrites) in Hin.
  rewrite (get_overlay _ _ setGlobal_overwrites) in Hin.
  destruct (JsMap.get k (buildSchemaMap schema JsMap.empty)) as [a0|] eqn:Hget;
    [|done].
  cbn in Hin. injection Hin as <-.
  apply JsMapFacts.get_Some_elem_of, elem_of_buildSchemaMap in Hget
    as [Hnil|(ach & Hach & -> & ->)].
  - by apply not_elem_of_nil in Hnil.
  - by exists ach.
Qed.

Lemma apiName_assignLast_user k l a :
  apiName (assignLast UserAchievement.apiname setUser k l a) = apiName a.
Proof. unfold assignLast. by destruct lastEntry. Qed.

Lemma apiName_assignLast_global k l a :
  apiName (assignLast GlobalStat.name setGlobal k l a) = apiName a.
Proof. unfold assignLast. by destruct lastEntry. Qed.

Lemma transformAchievementsData_elem_of a userAchievements globalStats schema :
  a ∈ transformAchievementsData userAchievements globalStats schema →
  ∃ ach, ach ∈ schema ∧ apiName a = SchemaEntry.name ach
    ∧ a = assignLast UserAchievement.apiname setUser
            (SchemaEntry.name ach) userAchievements
            (assignLast GlobalStat.name setGlobal
               (SchemaEntry.name ach) globalStats (schemaRecord ach)).
Proof.
  unfold transformAchievementsData, JsMap.values. intros Hin.
  apply list_elem_of_fmap in Hin as ([k a'] & -> & Hin). cbn.
  apply mergedMap_elem_of in Hin as (ach & Hach & -> & Ha).
  exists ach. split_and!; [done | | done].
  rewrite Ha, apiName_assignLast_user, apiName_assignLast_global. done.
Qed.

Lemma transformAchievementsData_keys userAchievements globalStats schema :
  apiName <$> transformAchievementsData userAchievements globalStats schema
  = JsMap.keys (buildSchemaMap schema JsMap.empty).
Proof.
  rewrite <- (mergedMap_keys userAchievements globalStats).
  unfold transformAchievementsData, JsMap.values, JsMap.keys.
  rewrite <- list_fmap_compose. apply list_fmap_ext.
  intros i [k a] Hi. cbn.
  apply list_elem_of_lookup_2, mergedMap_elem_of in Hi as (ach & _ & -> & ->).
  by rewrite apiName_assignLast_user, apiName_assignLast_global.
Qed.

(** C1. The merged list has exactly the schema's names as its apiName
    values: a name is the apiName of some output record if and only if it
    is the name of some schema entry, whatever the global-percentage and
    user-achievement lists contain; and no apiName occurs twice. *)
Theorem merge_keys_are_schema_keys userAchievements globalStats schema :
  (∀ k, k ∈ apiName <$> transformAchievementsData userAchievements globalStats schema
        ↔ k ∈ SchemaEntry.name <$> schema)
  ∧ NoDup (apiName <$> transformAchievementsData userAchievements globalStats schema).
Proof.
  rewrite transformAchievementsData_keys. split.
  - intros k. rewrite elem_of_keys_buildSchemaMap. cbn.
    rewrite elem_of_nil. tauto.
  - apply NoDup_keys_buildSchemaMap, NoDup_nil_2.
Qed.

(** C8. Exchanging the global-percentage pass and the user-achievement
    pass gives the same output list, record for record and field for
    field. *)
Theorem overlay_passes_commute userAchievements globalStats schema :
  transformAchievementsData_userFirst userAchievements globalStats schema
  = transformAchievementsData userAchievements globalStats schema.
Proof.
  unfold transformAchievementsData_userFirst, transformAchievementsData,
    overlayUser, overlayGlobal.
  f_equal. symmetry. apply overlay_comm. intros u g a.
  apply setUser_setGlobal_comm.
Qed.

Lemma scenario_merge :
  transformAchievementsData Sample.userAchievements Sample.globalStats Sample.schema
  = [Sample.recordA 10 false None;
     Sample.recordB 0 true (Some 1700000000);
     Sample.recordC 5 false None].
Proof. reflexivity. Qed.

Lemma globalPercentage_assignLast k l a :
  globalPercentage (assignLast UserAchievement.apiname setUser k l a)
  = globalPercentage a.
Proof. unfold assignLast. by destruct lastEntry. Qed.

(** The globalPercentage of a merged record, from the last global entry
    for its key. *)
Lemma merged_globalPercentage userAchievements globalStats schema a :
  a ∈ transformAchievementsData userAchievements globalStats schema →
  globalPercentage a
  = match lastEntry GlobalStat.name (apiName a) globalStats with
    | Some e => GlobalStat.percent e
    | None => 0%float
    end.
Proof.
  intros Hin.
  apply transformAchievementsData_elem_of in Hin as (ach & _ & Hk & Ha).
  rewrite Hk. rewrite Ha, globalPercentage_assignLast.
  unfold assignLast. by destruct lastEntry.
Qed.

Lemma lastEntry_is_Some {A : Type} (key : A → string) (k : string)
    (l : list A) (e : A) :
  e ∈ l → key e = k → is_Some (lastEntry key k l).
Proof.
  intros He Hk. destruct (lastEntry key k l) as [e0|] eqn:Hlast; [by eexists|].
  exfalso. revert He Hlast.
  induction l as [|e' l IH] using rev_ind; [by intros ?%not_elem_of_nil|].
  rewrite (lastEntry_snoc key), elem_of_app, list_elem_of_singleton.
  destruct (String.eqb_spec (key e') k) as [_|Hne]; [done|].
  intros [He| ->] Hlast; [by apply IH | done].
Qed.

(** C7. For every record of the merged list: if the global-percentage
    list contains an entry for the record's key, the record's
    globalPercentage equals that entry's percent value; if the list
    contains no entry for the key, globalPercentage is 0. "That entry's
    value" is the one value the entries for the key carry, as when the key
    has a single entry; in every case, repeated keys with different values
    included, the record carries the percent of the last entry for its
    key. *)
Theorem globalPercentage_from_global_stats userAchievements globalStats schema a :
  a ∈ transformAchievementsData userAchievements globalStats schema →
  (∀ e, e ∈ globalStats →
        GlobalStat.name e = apiName a →
        (∀ e', e' ∈ globalStats → GlobalStat.name e' = apiName a →
               GlobalStat.percent e' = GlobalStat.percent e) →
        globalPercentage a = GlobalStat.percent e)
  ∧ ((∀ e, e ∈ globalStats → GlobalStat.name e ≠ apiName a) →
     globalPercentage a = 0%float)
  ∧ (∀ pre e post,
        globalStats = pre ++ e :: post →
        GlobalStat.name e = apiName a →
        (∀ e', e' ∈ post → GlobalStat.name e' ≠ apiName a) →
        globalPercentage a = GlobalStat.percent e).
Proof.
  intros Hin. rewrite (merged_globalPercentage _ _ _ _ Hin). split_and!.
  - intros e He Hk Hsame.
    destruct (lastEntry_is_Some GlobalStat.name _ _ _ He Hk) as [e0 Hlast].
    rewrite Hlast. apply lastEntry_elem_of in Hlast as [He0 Hk0].
    by apply Hsame.
  - intros Hnone. by rewrite (lastEntry_None GlobalStat.name _ _ Hnone).
  - intros pre e post -> He Hpost.
    by rewrite (lastEntry_Some GlobalStat.name _ pre e post He Hpost).
Qed.

Lemma globalPercentage_from_global_stats_witness :
  globalPercentage (Sample.recordA 10 false None) = 10%float.
Proof.
  destruct (globalPercentage_from_global_stats
              Sample.userAchievements Sample.globalStats Sample.schema
              (Sample.recordA 10 false None)) as [Hentry _].
  - apply list_elem_of_here.
  - apply (Hentry (GlobalStat.mk "A" 10)).
    + apply list_elem_of_here.
    + reflexivity.
    + intros e' He' Hk.
      apply elem_of_cons in He' as [->|He']; [done|].
      apply list_elem_of_singleton in He' as ->. discriminate Hk.
Defined.

(** When the global-percentage list has one entry per key, the record
    carries the percent of the entry for its key. *)
Lemma globalPercentage_unique_entry userAchievements globalStats schema a e :
  NoDup (GlobalStat.name <$> globalStats) →
  a ∈ transformAchievementsData userAchievements globalStats schema →
  e ∈ globalStats → GlobalStat.name e = apiName a →
  globalPercentage a = GlobalStat.percent e.
Proof.
  intros Hnd Hin He Hk. rewrite (merged_globalPercentage _ _ _ _ Hin).
  by rewrite <- Hk, (lastEntry_unique GlobalStat.name _ _ Hnd He).
Qed.

(** Two entries for one key with different values: the later one stays. *)
Lemma globalPercentage_last_of_two :
  transformAchievementsData [] Sample.globalStatsTwice [Sample.schemaA]
  = [Sample.recordA 20 false None].
Proof. reflexivity. Qed.

Lemma orUndefined_is_Some x :
  is_Some (orUndefined x) ↔ ∃ t, x = Some t ∧ t ≠ 0.
Proof.
  destruct x as [t|]; cbn.
  - destruct (Z.eqb_spec t 0) as [->|Hne]; split.
    + by intros [? ?].
    + intros (t & [= <-] & ?). done.
    + eauto.
    + eauto.
  - split; [by intros [? ?] | by intros (? & ? & ?)].
Qed.

(** The two user fields of a merged record, from the last user entry for
    its key. *)
Lemma merged_user_fields userAchievements globalStats schema a :
  a ∈ transformAchievementsData userAchievements globalStats schema →
  match lastEntry UserAchievement.apiname (apiName a) userAchievements with
  | Some e =>
      unlocked a = (UserAchievement.achieved e =? 1)
      ∧ unlockTime a = orUndefined (UserAchievement.unlocktime e)
  | None => unlocked a = false ∧ unlockTime a = None
  end.
Proof.
  intros Hin.
  apply transformAchievementsData_elem_of in Hin as (ach & _ & Hk & Ha).
  rewrite Hk. rewrite Ha.
  set (g := assignLast GlobalStat.name setGlobal _ globalStats (schemaRecord ach)).
  assert (unlocked g = false ∧ unlockTime g = None) as Hg.
  { unfold g, assignLast. by destruct lastEntry. }
  unfold assignLast. by destruct (lastEntry UserAchievement.apiname).
Qed.

(** C2 (amended). For every record of the merged list: if some
    user-achievement entry carries its key, then with the last such entry,
    unlocked is true exactly when that entry's achieved flag is 1, and
    unlockTime is set exactly when that entry's unlock time is present and
    non-zero (whether or not the record is unlocked), and is then that unlock
    time; if no user-achievement entry carries its key, unlocked is false and
    unlockTime is absent. *)
Theorem unlocked_is_last_entry userAchievements globalStats schema a :
  a ∈ transformAchievementsData userAchievements globalStats schema →
  (∀ pre e post,
      userAchievements = pre ++ e :: post →
      UserAchievement.apiname e = apiName a →
      (∀ e', e' ∈ post → UserAchievement.apiname e' ≠ apiName a) →
      (unlocked a = true ↔ UserAchievement.achieved e = 1)
      ∧ (is_Some (unlockTime a)
         ↔ ∃ t, UserAchievement.unlocktime e = Some t ∧ t ≠ 0)
      ∧ (∀ t, unlockTime a = Some t → UserAchievement.unlocktime e = Some t))
  ∧ ((∀ e, e ∈ userAchievements → UserAchievement.apiname e ≠ apiName a) →
     unlocked a = false ∧ unlockTime a = None).
Proof.
  intros Hin. pose proof (merged_user_fields _ _ _ _ Hin) as Hfields. split.
  - intros pre e post -> He Hpost.
    rewrite (lastEntry_Some UserAchievement.apiname _ pre e post He Hpost)
      in Hfields.
    destruct Hfields as [-> ->]. split_and!.
    + apply Z.eqb_eq.
    + apply orUndefined_is_Some.
    + intros t Ht. destruct (UserAchievement.unlocktime e) as [t'|]; [|done].
      cbn in Ht. by destruct (t' =? 0).
  - intros Hnone.
    by rewrite (lastEntry_None UserAchievement.apiname _ _ Hnone) in Hfields.
Qed.

(** When the user-achievement list has one entry per key, unlocked is true
    exactly when the list has an entry for the key with achieved flag 1. *)
Lemma unlocked_unique_entry userAchievements globalStats schema a :
  NoDup (UserAchievement.apiname <$> userAchievements) →
  a ∈ transformAchievementsData userAchievements globalStats schema →
  unlocked a = true
  ↔ ∃ e, e ∈ userAchievements
       ∧ UserAchievement.apiname e = apiName a
       ∧ UserAchievement.achieved e = 1.
Proof.
  intros Hnd Hin. pose proof (merged_user_fields _ _ _ _ Hin) as Hfields.
  split.
  - intros Hu.
    destruct (lastEntry UserAchievement.apiname) as [e|] eqn:Hlast.
    + destruct Hfields as [Hun _].
      apply lastEntry_elem_of in Hlast as [He Hk].
      exists e. split_and!; [done | done |]. apply Z.eqb_eq. by rewrite <- Hun.
    + destruct Hfields as [Hun _]. congruence.
  - intros (e & He & Hk & Hach).
    rewrite <- Hk, (lastEntry_unique UserAchievement.apiname _ _ Hnd He)
      in Hfields.
    destruct Hfields as [-> _]. by apply Z.eqb_eq.
Qed.

Lemma unlocked_is_last_entry_witness :
  unlocked (Sample.recordA 0 false None) = false
  ∧ unlockTime (Sample.recordA 0 false None) = None.
Proof.
  destruct (unlocked_is_last_entry
              Sample.userTwice [] [Sample.schemaA]
              (Sample.recordA 0 false None)) as [Hlast _].
  - apply list_elem_of_here.
  - destruct (Hlast [UserAchievement.mk "A" 1 (Some 1700000000)]
                    (UserAchievement.mk "A" 0 None) []) as (Hu & Ht & _).
    + reflexivity.
    + reflexivity.
    + intros e' He'. by apply not_elem_of_nil in He'.
    + split.
      * apply not_true_is_false. intros E. apply Hu in E. discriminate E.
      * apply eq_None_not_Some. intros E.
        apply Ht in E as (t & Hs & _). discriminate Hs.
Defined.

(** C2 as stated fails in each of its two parts. A user entry with
    achieved = 0 and unlock time 1700000000 leaves a record that is not
    unlocked and yet has unlockTime set. Two user entries for one key, the
    first achieved and the second not, leave a record that is not unlocked
    although the list contains an entry for the key whose achieved flag
    is 1. *)
Lemma unlocked_claim_fails :
  (transformAchievementsData Sample.userNotAchievedWithTime [] [Sample.schemaA]
   = [Sample.recordA 0 false (Some 1700000000)]
   ∧ ¬ (∀ a, a ∈ transformAchievementsData
                    Sample.userNotAchievedWithTime [] [Sample.schemaA] →
          (is_Some (unlockTime a) ↔
           unlocked a = true
           ∧ ∃ e, e ∈ Sample.userNotAchievedWithTime
                ∧ UserAchievement.apiname e = apiName a
                ∧ ∃ t, UserAchievement.unlocktime e = Some t ∧ t ≠ 0)))
  ∧ (transformAchievementsData Sample.userTwice [] [Sample.schemaA]
     = [Sample.recordA 0 false None]
     ∧ ¬ (∀ a, a ∈ transformAchievementsData Sample.userTwice [] [Sample.schemaA] →
            (unlocked a = true ↔
             ∃ e, e ∈ Sample.userTwice
                ∧ UserAchievement.apiname e = apiName a
                ∧ UserAchievement.achieved e = 1))).
Proof.
  split; (split; [reflexivity|]); intros H.
  - destruct (H (Sample.recordA 0 false (Some 1700000000))
                (list_elem_of_here _ _)) as [Hset _].
    destruct Hset as [Hu _]; [by eexists|]. discriminate Hu.
  - destruct (H (Sample.recordA 0 false None) (list_elem_of_here _ _))
      as [_ Hu].
    enough (false = true) by done. apply Hu.
    exists (UserAchievement.mk "A" 1 (Some 1700000000)).
    split_and!; [apply list_elem_of_here | done | done].
Qed.

(** ** Fail-soft achievement fetch *)

(** The [catch] block makes the call total: it never throws. *)
Lemma getGameAchievements_resolves userStats globalStats schema :
  ∃ achievements,
    getGameAchievements userStats globalStats schema = Resolved achievements.
Proof.
  destruct userStats, globalStats, schema; cbn; eauto.
Qed.

(** C4. When any of the three upstream fetches is rejected,
    getGameAchievements resolves with the empty list: the error is not
    propagated and nothing is merged from the fetches that succeeded. *)
Theorem getGameAchievements_fail_soft userStats globalStats schema :
  isRejected userStats ∨ isRejected globalStats ∨ isRejected schema →
  getGameAchievements userStats globalStats schema = Resolved [].
Proof.
  intros Hfail.
  destruct userStats, globalStats, schema; cbn in *; try done; tauto.
Qed.

Lemma getGameAchievements_fail_soft_witness :
  getGameAchievements (Resolved Sample.userStatsResponse)
                      (Rejected Sample.timeout)
                      (Resolved Sample.schemaResponse)
  = Resolved [].
Proof.
  apply getGameAchievements_fail_soft. right. left. exact I.
Defined.

Lemma getGameAchievements_all_resolved :
  getGameAchievements (Resolved Sample.userStatsResponse)
                      (Resolved Sample.globalStatsResponse)
                      (Resolved Sample.schemaResponse)
  = Resolved [Sample.recordA 10 false None;
              Sample.recordB 0 true (Some 1700000000);
              Sample.recordC 5 false None].
Proof. reflexivity. Qed.

(** ** Owned games *)

(** C5 (amended). transformGameData produces a lastPlayed timestamp
    exactly when the upstream last-played value is present, zero included:
    the timestamp is that many seconds after the epoch, in milliseconds.
    When the value is absent the record has no lastPlayed. *)
Theorem lastPlayed_when_present game :
  (is_Some (Game.lastPlayed (transformGameData game))
   ↔ is_Some (SteamGame.rtime_last_played game))
  ∧ (∀ t, SteamGame.rtime_last_played game = Some t →
          Game.lastPlayed (transformGameData game) = Some {| epochMs := t * 1000 |})
  ∧ (SteamGame.rtime_last_played game = None →
     Game.lastPlayed (transformGameData game) = None).
Proof.
  unfold transformGameData. cbn.
  destruct (SteamGame.rtime_last_played game) as [t|]; split_and!.
  - split; eauto.
  - by intros ? [= ->].
  - done.
  - split; by intros [? ?].
  - done.
  - done.
Qed.

(** C5 as stated fails for a game whose upstream last-played value is 0:
    the record carries the epoch itself as lastPlayed. *)
Lemma lastPlayed_zero_is_epoch :
  Game.lastPlayed (transformGameData Sample.neverPlayed) = Some {| epochMs := 0 |}
  ∧ ¬ (∀ game,
         is_Some (Game.lastPlayed (transformGameData game)) →
         ∃ t, SteamGame.rtime_last_played game = Some t ∧ t ≠ 0).
Proof.
  split; [reflexivity|]. intros H.
  destruct (H Sample.neverPlayed) as (t & Ht & Hne); [by eexists|].
  injection Ht as <-. done.
Qed.

(** C10. A successful owned-games reply without a games array, or
    without the response object, gives the empty game list: the call
    resolves and does not throw. *)
Theorem getUserGames_without_games data :
  response data = None
  ∨ (∃ r, response data = Some r ∧ OwnedGames.games r = None) →
  getUserGames (Resolved data) = Resolved [].
Proof.
  unfold getUserGames. cbn.
  intros [Hnone|(r & Hsome & Hgames)].
  - by rewrite Hnone.
  - rewrite Hsome. cbn. by rewrite Hgames.
Qed.

Lemma getUserGames_without_games_witness :
  getUserGames (Resolved {| response := None |}) = Resolved []
  ∧ getUserGames (Resolved {| response := Some (OwnedGames.mk None) |})
    = Resolved [].
Proof.
  split; apply getUserGames_without_games.
  - by left.
  - right. by exists (OwnedGames.mk None).
Defined.

Lemma getUserGames_resolves data :
  getUserGames (Resolved data)
  = Resolved (transformGameData <$> orEmpty (response data ?. OwnedGames.games)).
Proof. reflexivity. Qed.

(** ** Achievement summary *)

Lemma filter_unlocked_length (achievements : list Achievement) :
  (length (List.filter unlocked achievements) ≤ length achievements)%nat.
Proof. apply List.filter_length_le. Qed.

Lemma achievementsSummary_unlocked (achievements : list Achievement) :
  Summary.unlocked (achievementsSummary achievements)
  = count_occ bool_dec (unlocked <$> achievements) true.
Proof.
  cbn. induction achievements as [|a achievements IH]; [done|].
  cbn. destruct (unlocked a); cbn; by rewrite IH.
Qed.

Lemma achievementsRoute_summary userStats globalStats schema :
  ∃ achievements,
    getGameAchievements userStats globalStats schema = Resolved achievements
    ∧ achievementsRoute userStats globalStats schema
      = Resolved {| achievements := achievements;
                    summary := achievementsSummary achievements |}.
Proof.
  unfold achievementsRoute.
  destruct (getGameAchievements_resolves userStats globalStats schema)
    as [achievements ->].
  by exists achievements.
Qed.

(** C6. The achievements route always answers with the list returned by
    getGameAchievements and a summary of that list in which total is the
    length of the list, unlocked is the number of records whose unlocked
    field is true, and percentage is unlocked / total * 100 (in the double
    arithmetic of the code) when the list is not empty and 0 when it is
    empty, so that no division by zero is made. *)
Theorem achievementsRoute_summary_spec userStats globalStats schema :
  ∃ payload,
    achievementsRoute userStats globalStats schema = Resolved payload
    ∧ getGameAchievements userStats globalStats schema
      = Resolved (achievements payload)
    ∧ Summary.total (summary payload) = length (achievements payload)
    ∧ Summary.unlocked (summary payload)
      = count_occ bool_dec (unlocked <$> achievements payload) true
    ∧ Summary.percentage (summary payload)
      = match length (achievements payload) with
        | O => 0%float
        | S _ =>
            (numberOfNat (Summary.unlocked (summary payload))
             / numberOfNat (Summary.total (summary payload))
             * 100)%float
        end.
Proof.
  destruct (achievementsRoute_summary userStats globalStats schema)
    as (l & Hget & Hroute).
  eexists. split; [exact Hroute|]. cbn [achievements summary].
  split_and!.
  - exact Hget.
  - done.
  - apply achievementsSummary_unlocked.
  - cbn. by destruct l.
Qed.

(** The scenarios of the specification: 4 unlocked out of 10 is 40, and
    the empty list gives 0. *)
Lemma scenario_summary_4_of_10 :
  achievementsSummary
    (replicate 4 (Sample.recordA 10 true (Some 1700000000))
     ++ replicate 6 (Sample.recordB 0 false None))
  = {| Summary.total := 10; Summary.unlocked := 4; Summary.percentage := 40 |}.
Proof. vm_compute. reflexivity. Qed.

(** The percentage is a double: 57 unlocked out of 100 is computed as
    56.999999999999993 (0x1.c7fffffffffffp+5). *)
Lemma summary_57_of_100 :
  Summary.percentage
    (achievementsSummary
       (replicate 57 (Sample.recordA 10 true (Some 1700000000))
        ++ replicate 43 (Sample.recordB 0 false None)))
  = 0x1.c7fffffffffffp+5%float.
Proof. vm_compute. reflexivity. Qed.

Lemma scenario_summary_empty :
  achievementsSummary []
  = {| Summary.total := 0; Summary.unlocked := 0; Summary.percentage := 0 |}.
Proof. reflexivity. Qed.

(** ** Rate limiter *)

Lemma purgeExpired_lookup_Some windowStart store k d :
  purgeExpired windowStart store !! k = Some d
  ↔ store !! k = Some d ∧ windowStart ≤ resetTime d.
Proof.
  unfold purgeExpired. rewrite map_lookup_filter_Some. cbn. split.
  - intros [? ?]. split; [done | lia].
  - intros [? ?]. split; [done | lia].
Qed.

Lemma purgeExpired_lookup_None windowStart store k :
  purgeExpired windowStart store !! k = None
  ↔ store !! k = None ∨ ∃ d, store !! k = Some d ∧ resetTime d < windowStart.
Proof.
  destruct (store !! k) as [d|] eqn:Hk.
  - destruct (decide (resetTime d < windowStart)) as [Hlt|Hge].
    + split; [eauto|]. intros _. apply eq_None_not_Some. intros [d' Hd'].
      apply purgeExpired_lookup_Some in Hd' as [Hd' ?].
      rewrite Hk in Hd'. injection Hd' as <-. lia.
    + assert (purgeExpired windowStart store !! k = Some d) as ->.
      { apply purgeExpired_lookup_Some. split; [done | lia]. }
      split; [done|]. intros [?|(d' & [= <-] & ?)]; [done | lia].
  - split; [auto|]. intros _. apply eq_None_not_Some. intros [d' Hd'].
    apply purgeExpired_lookup_Some in Hd' as [Hd' _]. by rewrite Hk in Hd'.
Qed.

(** A check by a key without a live entry opens a window: the count is 1,
    the check passes when the quota allows one request, and only then is
    the entry stored. *)
Lemma rateLimitKey_fresh config key now store :
  purgeExpired (now - windowMs config) store !! key = None →
  admitted (rateLimitKey config key now store).1
  = bool_decide (1 ≤ maxRequests config)
  ∧ (rateLimitKey config key now store).2 !! key
    = if bool_decide (1 ≤ maxRequests config)
      then Some {| count := 1; resetTime := now |}
      else None.
Proof.
  intros Hnone. unfold rateLimitKey. rewrite Hnone. cbn.
  destruct (now <? now - windowMs config); cbn; rewrite !Z.add_0_l;
    destruct (Z.gtb_spec 1 (maxRequests config)); cbn.
  all: try (rewrite bool_decide_eq_false_2 by lia; done).
  all: rewrite bool_decide_eq_true_2 by lia; by rewrite lookup_insert_eq.
Qed.

(** A check by a key with a live entry counts one more request in the
    same window, also when the check is refused. *)
Lemma rateLimitKey_live config key now store d :
  purgeExpired (now - windowMs config) store !! key = Some d →
  admitted (rateLimitKey config key now store).1
  = bool_decide (count d + 1 ≤ maxRequests config)
  ∧ (rateLimitKey config key now store).2 !! key
    = Some {| count := count d + 1; resetTime := resetTime d |}.
Proof.
  intros Hlive. unfold rateLimitKey. rewrite Hlive. cbn.
  apply purgeExpired_lookup_Some in Hlive as [_ Hge].
  destruct (Z.ltb_spec (resetTime d) (now - windowMs config)); [lia|]. cbn.
  destruct (Z.gtb_spec (count d + 1) (maxRequests config)); cbn.
  - rewrite bool_decide_eq_false_2 by lia. by rewrite lookup_insert_eq.
  - rewrite bool_decide_eq_true_2 by lia. by rewrite lookup_insert_eq.
Qed.

(** The entries of the other keys are only purged. *)
Lemma rateLimitKey_other config key now store k :
  k ≠ key →
  (rateLimitKey config key now store).2 !! k
  = purgeExpired (now - windowMs config) store !! k.
Proof.
  intros Hne. unfold rateLimitKey.
  destruct (purgeExpired (now - windowMs config) store !! key) as [d|]; cbn.
  - destruct (resetTime d <? now - windowMs config); cbn;
      match goal with |- context [if ?b then _ else _] => destruct b end; cbn;
      by rewrite lookup_insert_ne.
  - destruct (now <? now - windowMs config); cbn;
      match goal with |- context [if ?b then _ else _] => destruct b end; cbn;
      by rewrite ?lookup_insert_ne.
Qed.

Lemma rateLimit_with_key config req key now store :
  clientKey req = Some key → key ≠ "" →
  rateLimit config req now store = rateLimitKey config key now store.
Proof.
  intros Hreq Hkey. unfold rateLimit. rewrite Hreq.
  by destruct (String.eqb_spec key "").
Qed.

(** A check made by another client, or without a client key, leaves a
    live entry as it is and creates no entry. *)
Lemma rateLimit_other_lookup config req key now store :
  clientKey req ≠ Some key →
  (rateLimit config req now store).2 !! key = store !! key
  ∨ (rateLimit config req now store).2 !! key
    = purgeExpired (now - windowMs config) store !! key.
Proof.
  intros Hreq. unfold rateLimit.
  destruct (clientKey req) as [k'|]; [|by left].
  destruct (String.eqb k' ""); [by left|].
  right. apply rateLimitKey_other. congruence.
Qed.

Lemma rateLimit_other_live config req key now store d :
  clientKey req ≠ Some key →
  store !! key = Some d → now - resetTime d ≤ windowMs config →
  (rateLimit config req now store).2 !! key = Some d.
Proof.
  intros Hreq Hd Hnow.
  destruct (rateLimit_other_lookup config req key now store Hreq) as [->| ->];
    [done|].
  apply purgeExpired_lookup_Some. split; [done | lia].
Qed.

Lemma rateLimit_other_None config req key now store :
  clientKey req ≠ Some key →
  store !! key = None →
  (rateLimit config req now store).2 !! key = None.
Proof.
  intros Hreq Hd.
  destruct (rateLimit_other_lookup config req key now store Hreq) as [->| ->];
    [done|].
  apply purgeExpired_lookup_None. by left.
Qed.

Lemma rateLimitAll_cons config req now checks store :
  rateLimitAll config ((req, now) :: checks) store
  = ((rateLimit config req now store).1
       :: (rateLimitAll config checks (rateLimit config req now store).2).1,
     (rateLimitAll config checks (rateLimit config req now store).2).2).
Proof.
  cbn. destruct (rateLimit config req now store) as [o store1]. cbn.
  by destruct (rateLimitAll config checks store1).
Qed.

Lemma outcomesOf_length config key checks store :
  length (outcomesOf key checks (rateLimitAll config checks store).1)
  = length (filter (λ c, clientKey c.1 = Some key) checks).
Proof.
  revert store. induction checks as [|[req now] checks IH]; intros store;
    [done|].
  rewrite rateLimitAll_cons, filter_cons. cbn.
  case_bool_decide; case_decide; try done; cbn; by rewrite IH.
Qed.

(** Inside the window of a live entry, the checks of its key are counted
    one by one, whatever the other clients do in between. *)
Lemma rateLimitAll_live config key checks :
  key ≠ "" →
  ∀ store d,
    store !! key = Some d →
    Forall (λ c, c.2 - resetTime d ≤ windowMs config) checks →
    ∀ (i : nat) o,
      outcomesOf key checks (rateLimitAll config checks store).1 !! i = Some o →
      admitted o = bool_decide (count d + Z.of_nat i + 1 ≤ maxRequests config).
Proof.
  intros Hkey. induction checks as [|[req now] checks IH];
    intros store d Hd Hwin i o; [done|].
  apply Forall_cons in Hwin as [Hnow Hwin]. cbn in Hnow.
  rewrite rateLimitAll_cons. cbn. case_bool_decide as Hreq.
  - rewrite (rateLimit_with_key _ _ key) by done.
    destruct (rateLimitKey_live config key now store d) as [Hadm Hstore].
    { apply purgeExpired_lookup_Some. split; [done | lia]. }
    destruct i as [|i]; cbn.
    + intros [= <-]. rewrite Hadm. f_equal. apply bool_decide_ext. lia.
    + intros Ho. rewrite (IH _ _ Hstore Hwin i o Ho). cbn.
      apply bool_decide_ext. lia.
  - apply IH; [|done].
    by apply rateLimit_other_live.
Qed.

(** With a quota below one request nothing is ever stored for the key and
    every check of the key is refused. *)
Lemma rateLimitAll_no_quota config key checks :
  key ≠ "" → maxRequests config < 1 →
  ∀ store,
    store !! key = None →
    ∀ (i : nat) o,
      outcomesOf key checks (rateLimitAll config checks store).1 !! i = Some o →
      admitted o = false.
Proof.
  intros Hkey Hquota. induction checks as [|[req now] checks IH];
    intros store Hnone i o; [done|].
  rewrite rateLimitAll_cons. cbn. case_bool_decide as Hreq.
  - rewrite (rateLimit_with_key _ _ key) by done.
    destruct (rateLimitKey_fresh config key now store) as [Hadm Hstore].
    { apply purgeExpired_lookup_None. by left. }
    rewrite bool_decide_eq_false_2 in Hadm, Hstore by lia.
    destruct i as [|i]; cbn.
    + by intros [= <-].
    + by apply IH.
  - apply IH. by apply rateLimit_other_None.
Qed.

(** C3 (amended). For a client key, window length windowMs and quota
    N = maxRequests:
    - a check at time now opens a fresh window with count 1 whenever no
      entry exists for the key or now - windowStart > windowMs (strictly),
      and it passes provided N >= 1;
    - otherwise (an entry exists and now - windowStart <= windowMs) the
      count is incremented, also when the check is refused, and the check is
      refused exactly when the incremented count exceeds N;
    - of the checks a key makes from the opening of a window until windowMs
      later, with checks of other clients in between, the i-th passes
      exactly when i <= N: in particular the (N+1)-th is refused. Once more
      than windowMs has elapsed the first case applies again. *)
Theorem rateLimit_fixed_window config key :
  key ≠ "" →
  (∀ req now store,
      clientKey req = Some key →
      (store !! key = None
       ∨ ∃ d, store !! key = Some d ∧ now - resetTime d > windowMs config) →
      1 ≤ maxRequests config →
      admitted (rateLimit config req now store).1 = true
      ∧ (rateLimit config req now store).2 !! key
        = Some {| count := 1; resetTime := now |})
  ∧ (∀ req now store d,
      clientKey req = Some key →
      store !! key = Some d →
      now - resetTime d ≤ windowMs config →
      (rateLimit config req now store).2 !! key
      = Some {| count := count d + 1; resetTime := resetTime d |}
      ∧ (admitted (rateLimit config req now store).1 = false
         ↔ maxRequests config < count d + 1))
  ∧ (∀ req t0 checks store,
      clientKey req = Some key →
      (store !! key = None
       ∨ ∃ d, store !! key = Some d ∧ t0 - resetTime d > windowMs config) →
      Forall (λ c, c.2 - t0 ≤ windowMs config) checks →
      let outcomes :=
        outcomesOf key ((req, t0) :: checks)
          (rateLimitAll config ((req, t0) :: checks) store).1 in
      length outcomes
      = S (length (filter (λ c, clientKey c.1 = Some key) checks))
      ∧ ∀ (i : nat) o,
          outcomes !! i = Some o →
          admitted o = bool_decide (Z.of_nat i + 1 ≤ maxRequests config)).
Proof.
  intros Hkey.
  assert (∀ now store,
             (store !! key = None
              ∨ ∃ d, store !! key = Some d ∧ now - resetTime d > windowMs config) →
             purgeExpired (now - windowMs config) store !! key = None)
    as Hexpired.
  { intros now store [Hnone|(d & Hd & Hnow)];
      apply purgeExpired_lookup_None; [by left|].
    right. exists d. split; [done | lia]. }
  split_and!.
  - intros req now store Hreq Hfresh Hquota.
    rewrite (rateLimit_with_key _ _ key) by done.
    destruct (rateLimitKey_fresh config key now store (Hexpired _ _ Hfresh))
      as [Hadm Hstore].
    by rewrite bool_decide_eq_true_2 in Hadm, Hstore.
  - intros req now store d Hreq Hd Hnow.
    rewrite (rateLimit_with_key _ _ key) by done.
    destruct (rateLimitKey_live config key now store d) as [Hadm Hstore].
    { apply purgeExpired_lookup_Some. split; [done | lia]. }
    split; [done|]. rewrite Hadm, bool_decide_eq_false. lia.
  - intros req t0 checks store Hreq Hfresh Hwin. cbv zeta. split.
    + rewrite <- (outcomesOf_length config key checks
                    (rateLimit config req t0 store).2).
      rewrite rateLimitAll_cons. cbn. by rewrite bool_decide_eq_true_2.
    + intros i o. rewrite rateLimitAll_cons. cbn.
      rewrite bool_decide_eq_true_2 by done.
      rewrite (rateLimit_with_key _ _ key) by done.
      destruct (rateLimitKey_fresh config key t0 store (Hexpired _ _ Hfresh))
        as [Hadm Hstore].
      destruct (decide (1 ≤ maxRequests config)) as [Hquota|Hquota].
      * rewrite bool_decide_eq_true_2 in Hadm, Hstore by done.
        destruct i as [|i]; cbn.
        -- intros [= <-]. rewrite Hadm. symmetry.
           apply bool_decide_eq_true_2. lia.
        -- intros Ho.
           rewrite (rateLimitAll_live config key checks Hkey _ _ Hstore Hwin i o Ho).
           cbn. apply bool_decide_ext. lia.
      * rewrite bool_decide_eq_false_2 in Hadm, Hstore by done.
        destruct i as [|i]; cbn.
        -- intros [= <-]. rewrite Hadm. symmetry.
           apply bool_decide_eq_false_2. lia.
        -- intros Ho.
           rewrite (rateLimitAll_no_quota config key checks Hkey ltac:(lia)
                      _ Hstore i o Ho).
           symmetry. apply bool_decide_eq_false_2. lia.
Qed.

(** With a quota of two per minute, the third check of a client inside the
    minute is refused, and a check made more than a minute after the window
    was opened passes with a fresh count of 1. *)
Lemma rateLimit_fixed_window_witness :
  (∀ o,
     outcomesOf Sample.client
       [(requestFrom Sample.client, 1000); (requestFrom "198.51.100.9", 2000);
        (requestFrom Sample.client, 30000); (requestFrom Sample.client, 61000)]
       (rateLimitAll Sample.twoPerMinute
          [(requestFrom Sample.client, 1000); (requestFrom "198.51.100.9", 2000);
           (requestFrom Sample.client, 30000); (requestFrom Sample.client, 61000)]
          ∅).1 !! 2%nat = Some o →
     admitted o = false)
  ∧ (admitted (rateLimit Sample.twoPerMinute (requestFrom Sample.client) 60001
                 Sample.usedWindow).1 = true
     ∧ (rateLimit Sample.twoPerMinute (requestFrom Sample.client) 60001
          Sample.usedWindow).2 !! Sample.client
       = Some {| count := 1; resetTime := 60001 |}).
Proof.
  destruct (rateLimit_fixed_window Sample.twoPerMinute Sample.client)
    as (Hfresh & _ & Hseq); [done|].
  split.
  - intros o Ho.
    destruct (Hseq (requestFrom Sample.client) 1000
                [(requestFrom "198.51.100.9", 2000);
                 (requestFrom Sample.client, 30000);
                 (requestFrom Sample.client, 61000)] ∅) as [_ Hadm].
    + reflexivity.
    + left. apply lookup_empty.
    + repeat constructor; cbn; lia.
    + apply (Hadm 2%nat o Ho).
  - apply Hfresh.
    + reflexivity.
    + right. exists {| count := 1; resetTime := 0 |}. split.
      * apply lookup_singleton_eq.
      * cbn. lia.
    + cbn. lia.
Defined.

(** C3 as stated fails in two places. Exactly windowMs after the window
    was opened (now - windowStart = windowMs) the entry is still live: with
    a quota of one per minute and one request counted at time 0, the check
    at time 60000 is refused and the count becomes 2. And with a quota of
    zero the first check of a client, which has no entry, is refused. *)
Lemma rateLimit_claim_fails :
  (Sample.usedWindow !! Sample.client = Some {| count := 1; resetTime := 0 |}
   ∧ admitted (rateLimit Sample.onePerMinute (requestFrom Sample.client) 60000
                 Sample.usedWindow).1 = false
   ∧ (rateLimit Sample.onePerMinute (requestFrom Sample.client) 60000
        Sample.usedWindow).2 !! Sample.client
     = Some {| count := 2; resetTime := 0 |}
   ∧ ¬ (60000 - 0 >= windowMs Sample.onePerMinute →
        admitted (rateLimit Sample.onePerMinute (requestFrom Sample.client) 60000
                    Sample.usedWindow).1 = true
        ∧ (rateLimit Sample.onePerMinute (requestFrom Sample.client) 60000
             Sample.usedWindow).2 !! Sample.client
          = Some {| count := 1; resetTime := 60000 |}))
  ∧ ((∅ : gmap string ClientData) !! Sample.client = None
     ∧ admitted (rateLimit Sample.noQuota (requestFrom Sample.client) 60000 ∅).1
       = false
     ∧ (rateLimit Sample.noQuota (requestFrom Sample.client) 60000 ∅).2
         !! Sample.client = None
     ∧ ¬ ((∅ : gmap string ClientData) !! Sample.client = None →
          admitted (rateLimit Sample.noQuota (requestFrom Sample.client) 60000 ∅).1
          = true)).
Proof.
  assert (admitted (rateLimit Sample.onePerMinute (requestFrom Sample.client)
                      60000 Sample.usedWindow).1 = false) as Hboundary
    by (vm_compute; done).
  assert (admitted (rateLimit Sample.noQuota (requestFrom Sample.client)
                      60000 ∅).1 = false) as Hquota
    by (vm_compute; done).
  split; split_and!.
  - vm_compute; done.
  - exact Hboundary.
  - vm_compute; done.
  - intros H. destruct H as [Hadm _]; [cbn; lia|].
    rewrite Hboundary in Hadm. discriminate Hadm.
  - apply lookup_empty.
  - exact Hquota.
  - vm_compute; done.
  - intros H. rewrite Hquota in H. by specialize (H (lookup_empty _)).
Qed.

(** C9. When neither req.ip nor the socket's remote address gives a
    client key, the request is passed on and the store is left exactly as it
    was: no entry is created, counted or purged. *)
Theorem rateLimit_without_key config req now store :
  ip req = None → remoteAddress req = None →
  rateLimit config req now store = (Next None, store).
Proof.
  intros Hip Hsocket. unfold rateLimit, clientKey.
  by rewrite Hip, Hsocket.
Qed.

Lemma rateLimit_without_key_witness :
  rateLimit Sample.onePerMinute {| ip := None; remoteAddress := None |} 120000
    Sample.usedWindow
  = (Next None, Sample.usedWindow).
Proof. by apply rateLimit_without_key. Defined.

(** The same holds for every request whose key is falsy, the empty
    string included. *)
Lemma rateLimit_falsy_key config req now store :
  clientKey req = None ∨ clientKey req = Some "" →
  rateLimit config req now store = (Next None, store).
Proof. unfold rateLimit. by intros [-> | ->]. Qed.

(** ** Rate limiter: isolation, cleanup and reported figures *)

Lemma ceilSeconds_bounds x :
  x ≤ 1000 * ceilSeconds x ∧ 1000 * ceilSeconds x < x + 1000.
Proof.
  unfold ceilSeconds.
  pose proof (Z.div_mod (- x) 1000 ltac:(lia)).
  pose proof (Z.mod_pos_bound (- x) 1000 ltac:(lia)). lia.
Qed.

(** What a keyed check returns, by the state of the key's entry after the
    cleanup. *)
Lemma rateLimitKey_cases config key now store :
  (purgeExpired (now - windowMs config) store !! key = None
   ∧ rateLimitKey config key now store
     = if 1 >? maxRequests config
       then (TooManyRequests
               (default "Too many request" (orString (configMessage config) None))
               (ceilSeconds (now + windowMs config - now)),
             purgeExpired (now - windowMs config) store)
       else (Next (Some {| xRateLimitLimit := maxRequests config;
                           xRateLimitRemaining := maxRequests config - 1;
                           xRateLimitReset := ceilSeconds (now + windowMs config) |}),
             <[key := {| count := 1; resetTime := now |}]>
               (purgeExpired (now - windowMs config) store)))
  ∨ (∃ d,
       purgeExpired (now - windowMs config) store !! key = Some d
       ∧ now - resetTime d ≤ windowMs config
       ∧ rateLimitKey config key now store
         = if count d + 1 >? maxRequests config
           then (TooManyRequests
                   (default "Too many request"
                            (orString (configMessage config) None))
                   (ceilSeconds (resetTime d + windowMs config - now)),
                 <[key := {| count := count d + 1; resetTime := resetTime d |}]>
                   (purgeExpired (now - windowMs config) store))
           else (Next (Some {| xRateLimitLimit := maxRequests config;
                               xRateLimitRemaining :=
                                 maxRequests config - (count d + 1);
                               xRateLimitReset :=
                                 ceilSeconds (resetTime d + windowMs config) |}),
                 <[key := {| count := count d + 1; resetTime := resetTime d |}]>
                   (purgeExpired (now - windowMs config) store))).
Proof.
  unfold rateLimitKey.
  destruct (purgeExpired (now - windowMs config) store !! key) as [d|] eqn:Hd.
  - right. exists d. split; [done|].
    apply purgeExpired_lookup_Some in Hd as [_ Hge]. split; [lia|]. cbn.
    destruct (Z.ltb_spec (resetTime d) (now - windowMs config)); [lia|]. done.
  - left. split; [done|]. cbn.
    destruct (now <? now - windowMs config); cbn; by rewrite !Z.add_0_l.
Qed.

(** X1. A check never changes the entry of another client: an entry found
    under another key afterwards was there before, unchanged, and an entry
    of another key that is still inside its window is kept as it is. *)
Theorem rateLimit_other_clients config req now store k :
  clientKey req ≠ Some k →
  (∀ d, (rateLimit config req now store).2 !! k = Some d → store !! k = Some d)
  ∧ (∀ d, store !! k = Some d → now - resetTime d ≤ windowMs config →
          (rateLimit config req now store).2 !! k = Some d).
Proof.
  intros Hreq. split.
  - intros d.
    destruct (rateLimit_other_lookup config req k now store Hreq) as [->| ->];
      [done|].
    intros Hd. by apply purgeExpired_lookup_Some in Hd as [Hd _].
  - intros d Hd Hnow. by apply rateLimit_other_live.
Qed.

Lemma rateLimit_other_clients_witness :
  (rateLimit Sample.twoPerMinute (requestFrom Sample.client) 30000
     Scenario.twoClients).2 !! Scenario.other
  = Some {| count := 1; resetTime := 2000 |}.
Proof.
  destruct (rateLimit_other_clients Sample.twoPerMinute
              (requestFrom Sample.client) 30000 Scenario.twoClients
              Scenario.other) as [_ Hkept].
  - by intros [= ?].
  - apply Hkept.
    + vm_compute. reflexivity.
    + cbn. lia.
Defined.

(** X2. With a non-negative window length, after a keyed check at time
    now every entry of the store, of whatever client, has
    now - resetTime <= windowMs: entries older than the window are gone. *)
Theorem rateLimit_store_is_recent config req key now store :
  clientKey req = Some key → key ≠ "" → 0 ≤ windowMs config →
  ∀ k d, (rateLimit config req now store).2 !! k = Some d →
         now - resetTime d ≤ windowMs config.
Proof.
  intros Hreq Hkey Hwindow k d.
  rewrite (rateLimit_with_key _ _ key) by done.
  destruct (decide (k = key)) as [->|Hne].
  - destruct (purgeExpired (now - windowMs config) store !! key) as [d0|] eqn:Hd0.
    + destruct (rateLimitKey_live config key now store d0 Hd0) as [_ ->].
      intros [= <-]. cbn.
      apply purgeExpired_lookup_Some in Hd0 as [_ ?]. lia.
    + destruct (rateLimitKey_fresh config key now store Hd0) as [_ ->].
      case_bool_decide; [|done]. intros [= <-]. cbn. lia.
  - rewrite rateLimitKey_other by done.
    intros Hd. apply purgeExpired_lookup_Some in Hd as [_ ?]. lia.
Qed.

Lemma rateLimit_store_is_recent_witness :
  61500 - resetTime {| count := 2; resetTime := 2000 |} ≤ 60000.
Proof.
  apply (rateLimit_store_is_recent Sample.twoPerMinute
           (requestFrom Scenario.other) Scenario.other 61500
           Scenario.twoClients eq_refl ltac:(done) ltac:(cbn; lia)
           Scenario.other).
  vm_compute. reflexivity.
Defined.

(** X3. When a keyed check passes, the headers describe the entry it
    stored: the limit is maxRequests, the remaining quota is maxRequests
    minus the stored count and is never negative, and the reset second is
    the end of the window rounded up (not before the end, less than a second
    after it). *)
Theorem rateLimit_headers config req key now store headers store' :
  clientKey req = Some key → key ≠ "" →
  rateLimit config req now store = (Next headers, store') →
  ∃ h entry,
    headers = Some h
    ∧ store' !! key = Some entry
    ∧ xRateLimitLimit h = maxRequests config
    ∧ xRateLimitRemaining h = maxRequests config - count entry
    ∧ 0 ≤ xRateLimitRemaining h
    ∧ resetTime entry + windowMs config ≤ 1000 * xRateLimitReset h
    ∧ 1000 * xRateLimitReset h < resetTime entry + windowMs config + 1000.
Proof.
  intros Hreq Hkey. rewrite (rateLimit_with_key _ _ key) by done.
  destruct (rateLimitKey_cases config key now store)
    as [[_ ->]|(d & _ & _ & ->)].
  - destruct (Z.gtb_spec 1 (maxRequests config)); [done|].
    intros [= <- <-]. eexists _, _. rewrite lookup_insert_eq.
    split_and!; try done; cbn; try lia; apply ceilSeconds_bounds.
  - destruct (Z.gtb_spec (count d + 1) (maxRequests config)); [done|].
    intros [= <- <-]. eexists _, _. rewrite lookup_insert_eq.
    split_and!; try done; cbn; try lia; apply ceilSeconds_bounds.
Qed.

Lemma rateLimit_headers_witness :
  ∃ h entry,
    Some {| xRateLimitLimit := 2; xRateLimitRemaining := 0;
            xRateLimitReset := 62 |} = Some h
    ∧ (rateLimit Sample.twoPerMinute (requestFrom Scenario.other) 30000
         Scenario.twoClients).2 !! Scenario.other = Some entry
    ∧ xRateLimitLimit h = 2
    ∧ xRateLimitRemaining h = 2 - count entry
    ∧ 0 ≤ xRateLimitRemaining h
    ∧ resetTime entry + 60000 ≤ 1000 * xRateLimitReset h
    ∧ 1000 * xRateLimitReset h < resetTime entry + 60000 + 1000.
Proof.
  apply (rateLimit_headers Sample.twoPerMinute (requestFrom Scenario.other)
           Scenario.other 30000 Scenario.twoClients).
  - reflexivity.
  - done.
  - vm_compute. reflexivity.
Defined.




(** ** Request-level cache *)

Section MakeRequestFacts.
Context {T Params : Type}.
Variable stringify : Params → string.
Implicit Types (cache : gmap string (CacheEntry T)) (get : Fetch T).

Lemma makeRequest_miss endpoint params now get arrival cache :
  (∀ cached, cache !! cacheKey stringify endpoint params = Some cached →
             expiry cached ≤ now) →
  makeRequest stringify endpoint params now get arrival cache
  = match get with
    | Resolved responseData =>
        (Resolved responseData,
         <[cacheKey stringify endpoint params :=
             {| data := responseData; expiry := arrival + 3600000 |}]> cache)
    | Rejected error => (Rejected error, cache)
    end.
Proof.
  intros Hstale. unfold makeRequest.
  destruct (cache !! cacheKey stringify endpoint params) as [cached|]; [|done].
  destruct (Z.gtb_spec (expiry cached) now); [|done].
  specialize (Hstale cached eq_refl). lia.
Qed.

(** While the cache holds an entry for the request that has not yet
    expired (expiry > now), makeRequest returns the cached payload whatever
    the upstream would answer, and leaves the cache as it is. *)
Theorem makeRequest_hit endpoint params now get arrival cache cached :
  cache !! cacheKey stringify endpoint params = Some cached →
  now < expiry cached →
  makeRequest stringify endpoint params now get arrival cache
  = (Resolved (data cached), cache).
Proof.
  intros Hcached Hfresh. unfold makeRequest. rewrite Hcached.
  destruct (Z.gtb_spec (expiry cached) now); [done | lia].
Qed.

(** X5. A call that misses and fetches a payload stores it under the
    request's key with expiry arrival + 3600000 and leaves the entries of
    other requests as they were. On any cache that holds this entry, a call
    for the same request made before arrival + 3600000 returns the payload
    whatever the upstream would answer and leaves the cache unchanged, and a
    call made at arrival + 3600000 or later returns what the upstream
    answers then. *)
Theorem makeRequest_reuse endpoint params now arrival cache responseData :
  (∀ cached, cache !! cacheKey stringify endpoint params = Some cached →
             expiry cached ≤ now) →
  let cache' :=
    (makeRequest stringify endpoint params now (Resolved responseData)
       arrival cache).2 in
  cache' !! cacheKey stringify endpoint params
  = Some {| data := responseData; expiry := arrival + 3600000 |}
  ∧ (∀ k, k ≠ cacheKey stringify endpoint params → cache' !! k = cache !! k)
  ∧ (∀ cache2 now2 get2 arrival2,
      cache2 !! cacheKey stringify endpoint params
      = Some {| data := responseData; expiry := arrival + 3600000 |} →
      (now2 < arrival + 3600000 →
       makeRequest stringify endpoint params now2 get2 arrival2 cache2
       = (Resolved responseData, cache2))
      ∧ (arrival + 3600000 ≤ now2 →
         (makeRequest stringify endpoint params now2 get2 arrival2 cache2).1
         = get2)).
Proof.
  intros Hstale. cbv zeta. rewrite (makeRequest_miss _ _ _ _ _ _ Hstale). cbn.
  split_and!.
  - by rewrite lookup_insert_eq.
  - intros k Hk. by rewrite lookup_insert_ne.
  - intros cache2 now2 get2 arrival2 Hentry. split.
    + intros Hnow2. unfold makeRequest. rewrite Hentry. cbn.
      destruct (Z.gtb_spec (arrival + 3600000) now2); [done | lia].
    + intros Hnow2. rewrite makeRequest_miss.
      * by destruct get2.
      * intros cached. rewrite Hentry. intros [= <-]. cbn. lia.
Qed.

(** X6. A call that ends in an error has not changed the cache: the
    error is the upstream's, no unexpired entry existed for the request, and
    nothing is stored for it. *)
Theorem makeRequest_rejected endpoint params now get arrival cache error cache' :
  makeRequest stringify endpoint params now get arrival cache
  = (Rejected error, cache') →
  cache' = cache
  ∧ get = Rejected error
  ∧ ∀ cached, cache !! cacheKey stringify endpoint params = Some cached →
              expiry cached ≤ now.
Proof.
  unfold makeRequest.
  destruct (cache !! cacheKey stringify endpoint params) as [cached|].
  - destruct (Z.gtb_spec (expiry cached) now); [done|].
    destruct get; intros [= <- <-]. split_and!; [done..|].
    by intros ? [= <-].
  - destruct get; intros [= <- <-]. by split_and!.
Qed.

End MakeRequestFacts.

Lemma makeRequest_hit_witness :
  makeRequest (λ _ : unit, "{}") "games" () 4999 (Rejected Sample.timeout) 5100
    Scenario.cached
  = (Resolved 7, Scenario.cached).
Proof.
  apply (makeRequest_hit (λ _ : unit, "{}") "games" () 4999
           (Rejected Sample.timeout) 5100 Scenario.cached
           {| data := 7; expiry := 5000 |}).
  - vm_compute. reflexivity.
  - cbn. lia.
Defined.

(** A payload fetched at 5100 is still served at 3605099, after a call for
    another request has been stored in between. *)
Lemma makeRequest_reuse_witness :
  (makeRequest (λ _ : unit, "{}") "games" () 3605099
     (Rejected Sample.timeout) 3605200
     (makeRequest (λ _ : unit, "{}") "schema" () 6000 (Resolved 9) 6100
        (makeRequest (λ _ : unit, "{}") "games" () 5000 (Resolved 8) 5100
           Scenario.cached).2).2).1
  = Resolved 8.
Proof.
  destruct (makeRequest_reuse (λ _ : unit, "{}") "games" () 5000 5100
              Scenario.cached 8) as (_ & _ & Hserved).
  - intros cached. change (cacheKey _ _ _) with "games:{}".
    unfold Scenario.cached. rewrite lookup_singleton_eq.
    intros [= <-]. cbn. lia.
  - destruct (Hserved
                (makeRequest (λ _ : unit, "{}") "schema" () 6000 (Resolved 9) 6100
                   (makeRequest (λ _ : unit, "{}") "games" () 5000 (Resolved 8)
                      5100 Scenario.cached).2).2
                3605099 (Rejected Sample.timeout) 3605200) as [Hbefore _].
    + vm_compute. reflexivity.
    + by rewrite (Hbefore ltac:(lia)).
Defined.

Lemma makeRequest_rejected_witness :
  (makeRequest (λ _ : unit, "{}") "games" () 5000 (Rejected Sample.timeout) 5100
     Scenario.cached).2
  = Scenario.cached.
Proof.
  destruct (makeRequest_rejected (λ _ : unit, "{}") "games" () 5000
              (Rejected Sample.timeout) 5100 Scenario.cached Sample.timeout
              (makeRequest (λ _ : unit, "{}") "games" () 5000
                 (Rejected Sample.timeout) 5100 Scenario.cached).2)
    as [Hsame _]; [|exact Hsame].
  vm_compute. reflexivity.
Defined.

(** ** Owned-games route and error replies *)

Lemma promiseAll_imap {A B : Type} (f : nat → A → Fetch B) (g : nat → A → B)
    (l : list A) :
  (∀ i a, l !! i = Some a → f i a = Resolved (g i a)) →
  promiseAll (imap f l) = Resolved (imap g l).
Proof.
  revert f g. induction l as [|a l IH]; intros f g Hfg; [done|].
  cbn. rewrite (Hfg 0%nat a eq_refl). cbn.
  rewrite (IH (f ∘ S) (g ∘ S)); [done|].
  intros i a' Hi. apply (Hfg (S i) a' Hi).
Qed.

Lemma totalPlaytime_sum (gs : list SteamGame.t) (acc : Z) :
  fold_left (λ sum game, sum + total (Game.playtime game))
            (transformGameData <$> gs) acc
  = acc + foldr Z.add 0 (SteamGame.playtime_forever <$> gs).
Proof.
  revert acc. induction gs as [|g gs IH]; intros acc; cbn; [lia|].
  rewrite IH. lia.
Qed.

(** The payload of the owned-games route once the owned-games request has
    resolved. *)
Lemma userGamesRoute_payload includeAchievements ownedGames fetches :
  userGamesRoute includeAchievements (Resolved ownedGames) fetches
  = Resolved
      {| games :=
           imap (λ i game,
                   {| baseGame := game;
                      gameAchievements :=
                        match includeAchievements with
                        | Some true =>
                            Some match getGameAchievements
                                         (fetches i).1.1 (fetches i).1.2
                                         (fetches i).2 with
                                 | Resolved l => l
                                 | Rejected _ => []
                                 end
                        | _ => None
                        end |})
                (transformGameData
                   <$> orEmpty (response ownedGames ?. OwnedGames.games));
         totalCount :=
           length (orEmpty (response ownedGames ?. OwnedGames.games));
         totalPlaytime :=
           foldr Z.add 0
             (SteamGame.playtime_forever
                <$> orEmpty (response ownedGames ?. OwnedGames.games)) |}.
Proof.
  unfold userGamesRoute, getUserGames. cbn.
  set (upstream := orEmpty (response ownedGames ?. OwnedGames.games)).
  rewrite totalPlaytime_sum, Z.add_0_l, length_fmap.
  destruct includeAchievements as [[|]|]; cbn.
  - erewrite promiseAll_imap; [done|].
    intros i a _. cbn.
    by destruct (getGameAchievements_resolves
                   (fetches i).1.1 (fetches i).1.2 (fetches i).2) as [l ->].
  - by rewrite <- (imap_const
                     (λ game, {| baseGame := game; gameAchievements := None |})).
  - by rewrite <- (imap_const
                     (λ game, {| baseGame := game; gameAchievements := None |})).
Qed.

(** X7. Once the owned-games request has resolved, the owned-games route
    always answers, whatever happens to the achievement requests: the games
    are the upstream games, transformed, in upstream order; totalCount is
    their number and totalPlaytime the sum of their playtime_forever; and a
    game carries an achievements list, the result of getGameAchievements
    for it, exactly when includeAchievements is true. *)
Theorem userGamesRoute_resolves includeAchievements ownedGames fetches :
  ∃ payload,
    userGamesRoute includeAchievements (Resolved ownedGames) fetches
    = Resolved payload
    ∧ baseGame <$> games payload
      = transformGameData <$> orEmpty (response ownedGames ?. OwnedGames.games)
    ∧ totalCount payload
      = length (orEmpty (response ownedGames ?. OwnedGames.games))
    ∧ totalPlaytime payload
      = foldr Z.add 0
          (SteamGame.playtime_forever
             <$> orEmpty (response ownedGames ?. OwnedGames.games))
    ∧ ∀ i g,
        games payload !! i = Some g →
        match includeAchievements with
        | Some true =>
            ∃ l, getGameAchievements (fetches i).1.1 (fetches i).1.2
                                     (fetches i).2 = Resolved l
                 ∧ gameAchievements g = Some l
        | _ => gameAchievements g = None
        end.
Proof.
  eexists. split; [apply userGamesRoute_payload|]. cbn [games totalCount totalPlaytime].
  split_and!; [|done|done|].
  - apply list_eq. intros i. rewrite list_lookup_fmap, list_lookup_imap.
    by destruct (_ !! i).
  - intros i g. rewrite list_lookup_imap.
    destruct (_ !! i) as [game|]; [|done]. cbn. intros [= <-]. cbn.
    destruct includeAchievements as [[|]|]; [|done..].
    destruct (getGameAchievements_resolves
                (fetches i).1.1 (fetches i).1.2 (fetches i).2) as [l Hl].
    exists l. by rewrite Hl.
Qed.

(** X8. With includeAchievements, a game for which one of the three
    achievement requests fails is still in the answer, at its place, with an
    empty achievements list. *)
Theorem userGamesRoute_fail_soft ownedGames fetches i raw :
  orEmpty (response ownedGames ?. OwnedGames.games) !! i = Some raw →
  isRejected (fetches i).1.1 ∨ isRejected (fetches i).1.2
  ∨ isRejected (fetches i).2 →
  ∃ payload,
    userGamesRoute (Some true) (Resolved ownedGames) fetches = Resolved payload
    ∧ games payload !! i
      = Some {| baseGame := transformGameData raw;
                gameAchievements := Some [] |}.
Proof.
  intros Hraw Hfail. eexists. split; [apply userGamesRoute_payload|].
  cbn [games]. rewrite list_lookup_imap, list_lookup_fmap, Hraw. cbn.
  do 3 f_equal.
  destruct (fetches i) as [[u g] s]. cbn in *.
  destruct u, g, s; cbn in *; try done; tauto.
Qed.

Lemma userGamesRoute_fail_soft_witness :
  ∃ payload,
    userGamesRoute (Some true) (Resolved Scenario.owned) Scenario.fetches
    = Resolved payload
    ∧ games payload !! 0%nat
      = Some {| baseGame := transformGameData Sample.neverPlayed;
                gameAchievements := Some [] |}.
Proof.
  apply (userGamesRoute_fail_soft Scenario.owned Scenario.fetches 0
           Sample.neverPlayed).
  - reflexivity.
  - left. exact I.
Defined.

(** X9. When the owned-games request fails, the owned-games route answers
    through the error handler with code STEAM_API_ERROR and a non-zero
    status: the upstream's status when the upstream answered (500 if that
    status is 0), 503 when the request got no answer, 500 otherwise. The
    achievement requests play no part. *)
Theorem userGamesRoute_upstream_failure nodeEnv includeAchievements error fetches :
  ∃ reply,
    withErrorHandler nodeEnv
      (userGamesRoute includeAchievements
         (Rejected (handleSteamError error)) fetches)
    = ErrorJsonReply reply
    ∧ replyCode reply = "STEAM_API_ERROR"
    ∧ replyStatus reply ≠ 0
    ∧ (∀ r, errorResponse error = Some r →
            replyStatus reply = (if status r =? 0 then 500 else status r)
            ∧ replyMessage reply = "Steam API Error: " +:+ statusText r
            ∧ replySteamErrorCode reply = Some (errorcode r))
    ∧ (errorResponse error = None →
       replyStatus reply = if errorRequest error then 503 else 500).
Proof.
  eexists. split; [reflexivity|]. cbn. unfold handleSteamError.
  destruct (errorResponse error) as [r|]; cbn.
  - split_and!; [done| |by intros ? [= <-]|done].
    destruct (Z.eqb_spec (status r) 0); lia.
  - destruct (errorRequest error); cbn; by split_and!.
Qed.

(** The error handler never sets status 0, and outside the Steam and
    validation cases it does not disclose the error's message when NODE_ENV
    is production. *)
Theorem errorHandler_reply nodeEnv error :
  replyStatus (errorHandler nodeEnv error) ≠ 0
  ∧ (nodeEnv = Some "production" →
     replyCode (errorHandler nodeEnv error) = "INTERNAL_ERROR" →
     replyMessage (errorHandler nodeEnv error) = "Internal server error").
Proof.
  destruct error as [e|errorName errorText errorStatus]; cbn.
  - split; [|done]. destruct (Z.eqb_spec (statusCode e) 0); lia.
  - destruct (String.eqb errorName "ValibotError"); cbn; [by split|]. split.
    + destruct errorStatus as [n|]; cbn; [|lia].
      destruct (Z.eqb_spec n 0); lia.
    + intros -> _. by rewrite bool_decide_eq_true_2.
Qed.

(** ** Achievements route *)

(** X10. When any of the three upstream requests fails, the achievements
    route does not reach the error handler: it answers with an empty
    achievements list and the summary total 0, unlocked 0, percentage 0. *)
Theorem achievementsRoute_upstream_failure nodeEnv userStats globalStats schema :
  isRejected userStats ∨ isRejected globalStats ∨ isRejected schema →
  withErrorHandler nodeEnv (achievementsRoute userStats globalStats schema)
  = JsonReply {| achievements := [];
                 summary := {| Summary.total := 0;
                               Summary.unlocked := 0;
                               Summary.percentage := 0 |} |}.
Proof.
  intros Hfail.
  destruct userStats, globalStats, schema; cbn in *; try done; tauto.
Qed.

Lemma achievementsRoute_upstream_failure_witness :
  withErrorHandler None
    (achievementsRoute (Resolved Sample.userStatsResponse)
                       (Resolved Sample.globalStatsResponse)
                       (Rejected Sample.timeout))
  = JsonReply {| achievements := [];
                 summary := {| Summary.total := 0;
                               Summary.unlocked := 0;
                               Summary.percentage := 0 |} |}.
Proof.
  apply achievementsRoute_upstream_failure. right. right. exact I.
Defined.

(** ** More on the merge: order, static fields and ignored entries *)

Section JsMapPointwise.
Context {V : Type}.
Implicit Types (m : JsMap.t V) (k : string).

(** A map without repeated keys is determined by its key order and its
    lookups. *)
Lemma jsMap_eq m1 m2 :
  NoDup (JsMap.keys m1) → JsMap.keys m1 = JsMap.keys m2 →
  (∀ k, JsMap.get k m1 = JsMap.get k m2) → m1 = m2.
Proof.
  unfold JsMap.keys. revert m2.
  induction m1 as [|[k1 v1] m1 IH]; intros [|[k2 v2] m2]; csimpl; try done.
  intros Hnd [= <- Hkeys] Hget. apply NoDup_cons in Hnd as [Hk1 Hnd].
  pose proof (Hget k1) as Hv. cbn in Hv. rewrite String.eqb_refl in Hv.
  injection Hv as <-. f_equal. apply IH; [done..|].
  intros k. specialize (Hget k). cbn in Hget.
  destruct (String.eqb_spec k1 k) as [Heq|_]; [|done]. subst k.
  assert (∀ m, k1 ∉ m.*1 → JsMap.get k1 m = None) as Habsent.
  { clear. intros m Hm. destruct (JsMap.get k1 m) as [v|] eqn:Hv; [|done].
    exfalso. apply Hm. apply JsMapFacts.get_Some_elem_of in Hv.
    apply list_elem_of_fmap. by exists (k1, v). }
  rewrite !Habsent; [done | by rewrite <- Hkeys | done].
Qed.

Lemma get_fmap_pointwise (h : string → V → V) k m :
  JsMap.get k ((λ kv, (kv.1, h kv.1 kv.2)) <$> m) = h k <$> JsMap.get k m.
Proof.
  induction m as [|[k0 v0] m IH]; csimpl; [done|].
  by destruct (String.eqb_spec k0 k) as [->|_].
Qed.

Lemma keys_fmap_pointwise (h : string → V → V) m :
  JsMap.keys ((λ kv, (kv.1, h kv.1 kv.2)) <$> m) = JsMap.keys m.
Proof.
  unfold JsMap.keys. rewrite <- list_fmap_compose. by apply list_fmap_ext.
Qed.

Lemma set_absent k (v : V) m :
  k ∉ JsMap.keys m → JsMap.set k v m = m ++ [(k, v)].
Proof.
  unfold JsMap.keys. induction m as [|[k0 v0] m IH]; csimpl; [done|].
  rewrite not_elem_of_cons. intros [Hne Hm].
  destruct (String.eqb_spec k0 k) as [->|_]; [done|]. by rewrite IH.
Qed.

Lemma update_absent k (f : V → V) m :
  k ∉ JsMap.keys m → JsMap.update k f m = m.
Proof.
  unfold JsMap.keys. induction m as [|[k0 v0] m IH]; csimpl; [done|].
  rewrite not_elem_of_cons. intros [Hne Hm].
  destruct (String.eqb_spec k0 k) as [->|_]; [done|]. by rewrite IH.
Qed.

End JsMapPointwise.

Section OverlayPointwise.
Context {A V : Type}.
Variable key : A → string.
Variable assign : A → V → V.
Hypothesis assign_overwrites : ∀ e e' v, assign e (assign e' v) = assign e v.

(** On a map without repeated keys, a pass changes every record by the
    last entry for its key. *)
Lemma overlay_pointwise l (m : JsMap.t V) :
  NoDup (JsMap.keys m) →
  overlay key assign l m
  = (λ kv, (kv.1, assignLast key assign kv.1 l kv.2)) <$> m.
Proof.
  intros Hnd. apply jsMap_eq.
  - by rewrite keys_overlay.
  - by rewrite keys_overlay,
       (keys_fmap_pointwise (λ k, assignLast key assign k l)).
  - intros k. rewrite (get_overlay key assign assign_overwrites).
    by rewrite (get_fmap_pointwise (λ k, assignLast key assign k l)).
Qed.

(** Entries whose key is not in the map change nothing. *)
Lemma overlay_filter l (m : JsMap.t V) :
  overlay key assign l m
  = overlay key assign (filter (λ e, key e ∈ JsMap.keys m) l) m.
Proof.
  revert m. induction l as [|e l IH]; intros m; [done|].
  change (overlay key assign (e :: l) m)
    with (overlay key assign l (JsMap.update (key e) (assign e) m)).
  rewrite IH, JsMapFacts.keys_update, filter_cons. case_decide as He.
  - done.
  - by rewrite update_absent.
Qed.

End OverlayPointwise.

Lemma buildSchemaMap_NoDup schema :
  NoDup (SchemaEntry.name <$> schema) →
  buildSchemaMap schema JsMap.empty
  = (λ ach, (SchemaEntry.name ach, schemaRecord ach)) <$> schema.
Proof.
  induction schema as [|ach schema IH] using rev_ind; [done|].
  rewrite fmap_app. intros Hnd. apply NoDup_app in Hnd as (Hnd & Hfresh & _).
  rewrite buildSchemaMap_snoc, IH by done. rewrite set_absent.
  - by rewrite fmap_app.
  - unfold JsMap.keys. rewrite <- list_fmap_compose.
    intros Hin. apply (Hfresh _ Hin). cbn. apply list_elem_of_here.
Qed.

(** X11. When the schema names are distinct, the merged list has one
    record per schema entry, in schema order: the record built from that
    entry (name, description, icons, hidden), changed by the last
    global-percentage entry and the last user-achievement entry that carry
    the entry's name. In particular the apiName values are the schema names
    in order. *)
Theorem merge_follows_schema_order userAchievements globalStats schema :
  NoDup (SchemaEntry.name <$> schema) →
  transformAchievementsData userAchievements globalStats schema
  = (λ ach,
       assignLast UserAchievement.apiname setUser (SchemaEntry.name ach)
         userAchievements
         (assignLast GlobalStat.name setGlobal (SchemaEntry.name ach)
            globalStats (schemaRecord ach))) <$> schema
  ∧ apiName <$> transformAchievementsData userAchievements globalStats schema
    = SchemaEntry.name <$> schema.
Proof.
  intros Hnd.
  assert (NoDup (JsMap.keys (buildSchemaMap schema JsMap.empty))) as Hbase
    by apply NoDup_keys_buildSchemaMap, NoDup_nil_2.
  assert (transformAchievementsData userAchievements globalStats schema
          = (λ ach,
               assignLast UserAchievement.apiname setUser (SchemaEntry.name ach)
                 userAchievements
                 (assignLast GlobalStat.name setGlobal (SchemaEntry.name ach)
                    globalStats (schemaRecord ach))) <$> schema) as Hmerge.
  { unfold transformAchievementsData, overlayUser, overlayGlobal, JsMap.values.
    rewrite (overlay_pointwise _ _ setUser_overwrites).
    2:{ by rewrite keys_overlay. }
    rewrite (overlay_pointwise _ _ setGlobal_overwrites) by done.
    rewrite (buildSchemaMap_NoDup _ Hnd).
    rewrite <- !list_fmap_compose. by apply list_fmap_ext. }
  split; [done|]. rewrite Hmerge, <- list_fmap_compose.
  apply list_fmap_ext. intros i ach _. cbn.
  by rewrite apiName_assignLast_user, apiName_assignLast_global.
Qed.

Lemma merge_follows_schema_order_witness :
  apiName <$> transformAchievementsData Scenario.userWithStranger
                Scenario.globalWithStranger Sample.schema
  = ["A"; "B"; "C"].
Proof.
  destruct (merge_follows_schema_order Scenario.userWithStranger
              Scenario.globalWithStranger Sample.schema) as [_ Horder].
  - cbn. repeat constructor; rewrite ?elem_of_cons, ?elem_of_nil;
      intros H; repeat destruct H as [H|H]; done.
  - exact Horder.
Defined.

(** X12. Global-percentage and user-achievement entries whose key is not
    a schema name are ignored: dropping them from the two lists gives the
    same merged list. *)
Theorem merge_ignores_unknown_keys userAchievements globalStats schema :
  transformAchievementsData userAchievements globalStats schema
  = transformAchievementsData
      (filter (λ u, UserAchievement.apiname u ∈ SchemaEntry.name <$> schema)
              userAchievements)
      (filter (λ g, GlobalStat.name g ∈ SchemaEntry.name <$> schema)
              globalStats)
      schema.
Proof.
  unfold transformAchievementsData, overlayUser, overlayGlobal. f_equal.
  assert (∀ k, k ∈ JsMap.keys (buildSchemaMap schema JsMap.empty)
               ↔ k ∈ SchemaEntry.name <$> schema) as Hkeys.
  { intros k. rewrite elem_of_keys_buildSchemaMap. cbn.
    rewrite elem_of_nil. tauto. }
  rewrite (overlay_filter UserAchievement.apiname), keys_overlay.
  rewrite (overlay_filter GlobalStat.name setGlobal globalStats).
  f_equal; [|f_equal]; apply list_filter_iff; intros e; apply Hkeys.
Qed.

Lemma merge_with_unknown_keys :
  transformAchievementsData Scenario.userWithStranger Scenario.globalWithStranger
    Sample.schema
  = transformAchievementsData Sample.userAchievements Sample.globalStats
      Sample.schema.
Proof. reflexivity. Qed.

Lemma list_filter_bool {A : Type} (f : A → bool) (l : list A) :
  List.filter f l = filter (λ x, f x = true) l.
Proof.
  induction l as [|x l IH]; [done|]. rewrite filter_cons. cbn [List.filter].
  rewrite IH. destruct (f x); by case_decide.
Qed.

(** X13. The unlocked count of the summary of a merged list is at most the
    number of user-achievement entries whose achieved flag is 1: the summary
    never reports more unlocked achievements than the user-stats source
    marks achieved. *)
Theorem summary_unlocked_bound userAchievements globalStats schema :
  (Summary.unlocked
     (achievementsSummary
        (transformAchievementsData userAchievements globalStats schema))
   ≤ length (filter (λ u, UserAchievement.achieved u = 1%Z) userAchievements))%nat.
Proof.
  cbn. rewrite list_filter_bool.
  set (out := transformAchievementsData userAchievements globalStats schema).
  rewrite <- (length_fmap apiName (filter _ out)).
  rewrite <- (length_fmap UserAchievement.apiname (filter _ userAchievements)).
  apply submseteq_length, NoDup_submseteq.
  - apply (sublist_NoDup _ (apiName <$> out)).
    + unfold out. rewrite transformAchievementsData_keys.
      apply NoDup_keys_buildSchemaMap, NoDup_nil_2.
    + apply fmap_sublist, sublist_filter.
  - intros k Hk. apply list_elem_of_fmap in Hk as (a & -> & Ha).
    apply list_elem_of_filter in Ha as [Hunlocked Ha].
    pose proof (merged_user_fields _ _ _ _ Ha) as Hfields.
    destruct (lastEntry UserAchievement.apiname) as [e|] eqn:Hlast.
    + destruct Hfields as [Hu _].
      apply lastEntry_elem_of in Hlast as [He Hkey].
      apply list_elem_of_fmap. exists e. split; [done|].
      apply list_elem_of_filter. split; [|done].
      apply Z.eqb_eq. by rewrite <- Hu.
    + destruct Hfields as [Hu _]. congruence.
Qed.

(** ** Cover URLs *)

Lemma string_app_cons (a : Ascii.ascii) (s t : string) :
  String a s +:+ t = String a (s +:+ t).
Proof. reflexivity. Qed.

Lemma string_length_app (s t : string) :
  String.length (s +:+ t) = (String.length s + String.length t)%nat.
Proof.
  induction s as [|a s IH]; [done|].
  rewrite string_app_cons. cbn. by rewrite IH.
Qed.

Lemma string_app_inj_r (s1 s2 t : string) : s1 +:+ t = s2 +:+ t → s1 = s2.
Proof.
  revert s2. induction s1 as [|a1 s1 IH]; intros [|a2 s2] Heq.
  - done.
  - apply (f_equal String.length) in Heq.
    rewrite !string_length_app in Heq. cbn in Heq. lia.
  - apply (f_equal String.length) in Heq.
    rewrite !string_length_app in Heq. cbn in Heq. lia.
  - rewrite !string_app_cons in Heq. injection Heq as -> Heq.
    f_equal. by apply IH.
Qed.

(** X14. Games with different appids get different cover URLs. *)
Theorem coverUrl_distinct game1 game2 :
  SteamGame.appid game1 ≠ SteamGame.appid game2 →
  Game.coverUrl (transformGameData game1) ≠ Game.coverUrl (transformGameData game2).
Proof.
  intros Hne. cbn. intros Heq. apply Hne. apply String.app_inj in Heq.
  apply string_app_inj_r in Heq. by apply pretty_Z_inj in Heq.
Qed.

Lemma coverUrl_distinct_witness :
  Game.coverUrl (transformGameData Sample.neverPlayed)
  ≠ Game.coverUrl (transformGameData Scenario.played).
Proof. by apply coverUrl_distinct. Defined.

(** ** Optional parts of the requests and responses *)

(** X15. The owned-games route attaches achievements to the games exactly
    when the includeAchievements query value is the string "true", in that
    spelling: any other value, like its absence, gives games without the
    field. *)
Theorem userGamesRoute_includeAchievements query ownedGames fetches payload g :
  userGamesRoute (includeAchievementsOf query) (Resolved ownedGames) fetches
  = Resolved payload →
  g ∈ games payload →
  is_Some (gameAchievements g) ↔ query = Some "true".
Proof.
  rewrite userGamesRoute_payload. intros [= <-]. cbn [games].
  intros Hg. apply list_elem_of_lookup in Hg as [i Hi].
  rewrite list_lookup_imap in Hi.
  destruct (_ !! i) as [game|]; [|done]. cbn in Hi. injection Hi as <-. cbn.
  destruct query as [val|]; cbn.
  - destruct (String.eqb_spec val "true") as [->|Hne]; cbn.
    + split; [done | by eexists].
    + split; [by intros [? ?] | by intros [= ->]].
  - split; [by intros [? ?] | done].
Qed.

Lemma userGamesRoute_includeAchievements_witness :
  is_Some (gameAchievements
             {| baseGame := transformGameData Sample.neverPlayed;
                gameAchievements := None |})
  ↔ Some "TRUE" = Some "true".
Proof.
  apply (userGamesRoute_includeAchievements (Some "TRUE") Scenario.owned
           Scenario.fetches
           {| games :=
                [ {| baseGame := transformGameData Sample.neverPlayed;
                     gameAchievements := None |};
                  {| baseGame := transformGameData Scenario.played;
                     gameAchievements := None |} ];
              totalCount := 2;
              totalPlaytime := 1200 |}).
  - reflexivity.
  - apply list_elem_of_here.
Defined.

Lemma overlay_empty {A V : Type} (key : A → string) (assign : A → V → V)
    (l : list A) :
  overlay key assign l JsMap.empty = JsMap.empty.
Proof.
  pose proof (keys_overlay key assign l JsMap.empty) as Hkeys.
  by destruct (overlay key assign l JsMap.empty).
Qed.

(** X16. When the schema response carries no achievements array (the
    game, its availableGameStats or the array is missing), getGameAchievements
    resolves with the empty list, whatever the other two responses hold. *)
Theorem getGameAchievements_without_schema userStats globalStats schema :
  game schema ?. GameSchemaInfo.availableGameStats
              ?. AvailableGameStats.achievements = None →
  getGameAchievements (Resolved userStats) (Resolved globalStats)
                      (Resolved schema)
  = Resolved [].
Proof.
  intros Hschema. cbn. rewrite Hschema. cbn.
  unfold transformAchievementsData, overlayUser, overlayGlobal. cbn.
  by rewrite !overlay_empty.
Qed.

Lemma getGameAchievements_without_schema_witness :
  getGameAchievements (Resolved Sample.userStatsResponse)
                      (Resolved Sample.globalStatsResponse)
                      (Resolved {| game := Some (GameSchemaInfo.mk None) |})
  = Resolved [].
Proof. by apply getGameAchievements_without_schema. Defined.

(** X17. When the player-achievements response carries no achievements
    array (playerstats or the array is missing), every record that
    getGameAchievements returns is locked and has no unlock time. *)
Theorem getGameAchievements_without_playerstats userStats globalStats schema l a :
  playerstats userStats ?. PlayerStats.achievements = None →
  getGameAchievements (Resolved userStats) (Resolved globalStats)
                      (Resolved schema)
  = Resolved l →
  a ∈ l →
  unlocked a = false ∧ unlockTime a = None.
Proof.
  intros Huser. cbn. rewrite Huser. cbn. intros [= <-] Ha.
  exact (merged_user_fields []
           (orEmpty (achievementpercentages globalStats
                       ?. AchievementPercentages.achievements))
           (orEmpty (game schema ?. GameSchemaInfo.availableGameStats
                                 ?. AvailableGameStats.achievements))
           a Ha).
Qed.

Lemma getGameAchievements_without_playerstats_witness :
  unlocked (Sample.recordA 10 false None) = false
  ∧ unlockTime (Sample.recordA 10 false None) = None.
Proof.
  apply (getGameAchievements_without_playerstats
           {| playerstats := None |} Sample.globalStatsResponse
           Sample.schemaResponse
           [Sample.recordA 10 false None; Sample.recordB 0 false None;
            Sample.recordC 5 false None]).
  - reflexivity.
  - reflexivity.
  - apply list_elem_of_here.
Defined.
